(** * TripWeather: route sampling, significance filter and segment colouring

    A shallow embedding of the algorithmic functions of the weather/route
    module ([sampleRoutePoints], [filterSignificantWeatherPoints],
    [createRouteSegments], [haversineDistance]) and the properties the
    specification states about them.

    Conventions of the embedding.
    - A JavaScript number that holds a measure (coordinates, distances,
      durations, temperatures, precipitation) is a real number: the rounding
      of binary64 arithmetic, NaN and the infinities are not modelled.  A
      property that rests on a rounded result (a floor, an index found by
      comparing computed distances, a time) is therefore stated under
      hypotheses for which the binary64 evaluation cannot differ: an interval
      of whole seconds ([whole]), products and sums that are exact
      ([binary64]), dates well inside the valid range ([dateRange]) and
      routes on which the haversine formula keeps away from the square root
      of a negative number ([regional]).  Module [Binary64] evaluates the
      arithmetic of the sampling loop on the numbers of the language, on
      the concrete inputs where rounding shows.
    - A [Date] is its time value in milliseconds; [new Date(t)] keeps the
      whole milliseconds of [t] ([JS.newDate]).  A date outside the valid
      range (an invalid date, whose time value is NaN) is not modelled.
    - WMO weather codes and array indices are integers ([Z]); [findIndex]
      returns [-1] when nothing is found, as in the source.
    - An object field that may be missing or [null] is an [option];
      a flag that may be missing ([isStart], [isEnd]) is a [bool].
    - Reading an array outside its bounds and then reading a field of the
      result raises a [TypeError] in the source; a function that can do so
      returns an [option], with [None] for the exception.
    - A parameter is always passed: the defaults of the source
      ([intervalMinutes = 30], [maxPoints = 8]) are left to the caller, and
      [maxPoints], a number of points, is a natural number. *)

From Stdlib Require Import String.
From Stdlib Require Import Reals Zfloor Lra Lia ZArith List Bool Psatz.
From Stdlib Require Import Sorting.Permutation Sorting.Sorted.
From Stdlib Require Import DecimalString.
From Stdlib Require Floats.
Import ListNotations.
Open Scope R_scope.
#[local] Set Warnings "-inexact-float".

(** ** Built-ins of the language used by the source *)

Module JS.

(** [Math.atan2(y, x)] on the reals. *)
Definition atan2 (y x : R) : R :=
  if Rlt_dec 0 x then atan (y / x)
  else if Rlt_dec x 0 then
    (if Rle_dec 0 y then atan (y / x) + PI else atan (y / x) - PI)
  else if Rlt_dec 0 y then PI / 2
  else if Rlt_dec y 0 then - (PI / 2)
  else 0.

(** [Math.floor]. *)
Definition floor (x : R) : Z := Zfloor x.

(** [Math.trunc], and the truncation towards zero that the language applies
    where it turns a number into an integer. *)
Definition trunc (x : R) : Z := if Rle_dec 0 x then Zfloor x else Zceil x.

(** [new Date(t)], as the time value of the date: the constructor keeps
    the whole milliseconds of [t], truncated towards zero. *)
Definition newDate (t : R) : R := IZR (trunc t).

(** The comparisons of the source as booleans. *)
Definition geb (a b : R) : bool := if Rge_dec a b then true else false.
Definition gtb (a b : R) : bool := if Rgt_dec a b then true else false.
Definition leb (a b : R) : bool := if Rle_dec a b then true else false.
Definition eqb (a b : R) : bool := if Req_dec_T a b then true else false.

(** [arr[i]]: [None] stands for [undefined]. *)
Definition get {A} (arr : list A) (i : Z) : option A :=
  if (i <? 0)%Z then None else nth_error arr (Z.to_nat i).

(** [arr.length]. *)
Definition len {A} (arr : list A) : Z := Z.of_nat (length arr).

(** [arr.findIndex(f)]: the first index whose element satisfies [f],
    [-1] when there is none. *)
Fixpoint findIndexFrom {A} (f : A -> bool) (arr : list A) (i : Z) : Z :=
  match arr with
  | [] => (-1)%Z
  | x :: rest => if f x then i else findIndexFrom f rest (i + 1)%Z
  end.
Definition findIndex {A} (f : A -> bool) (arr : list A) : Z :=
  findIndexFrom f arr 0.

(** [arr.find(f)]. *)
Definition find {A} (f : A -> bool) (arr : list A) : option A :=
  List.find f arr.

(** A relative index of [slice]: negative counts from the end, and the
    result is clamped to [0 .. length]. *)
Definition relIndex (n : Z) (i : Z) : nat :=
  if (i <? 0)%Z then Z.to_nat (Z.max (n + i) 0) else Z.to_nat (Z.min i n).

(** [arr.slice(s, e)] and [arr.slice(s)]. *)
Definition slice {A} (arr : list A) (s e : Z) : list A :=
  let k := relIndex (len arr) s in
  let f := relIndex (len arr) e in
  firstn (f - k) (skipn k arr).
Definition sliceFrom {A} (arr : list A) (s : Z) : list A :=
  skipn (relIndex (len arr) s) arr.

(** [arr.sort(cmp)] for a comparator given as "a goes no later than b"
    ([cmp(a, b) <= 0]).  The sort of the language is stable; a stable
    insertion sort gives the same array for every comparator that is a
    total preorder. *)
Fixpoint insertBy {A} (le : A -> A -> bool) (x : A) (l : list A) : list A :=
  match l with
  | [] => [x]
  | y :: r => if le y x then y :: insertBy le x r else x :: l
  end.
Definition sortBy {A} (le : A -> A -> bool) (l : list A) : list A :=
  fold_left (fun acc x => insertBy le x acc) l [].

(** [arr.includes(x)] on integers. *)
Definition includes (arr : list Z) (x : Z) : bool :=
  existsb (Z.eqb x) arr.

End JS.

(** ** Data model *)

(** A point of the route geometry: the pair [[lat, lon]]. *)
Definition GeoPoint : Type := R * R.

(** A sampled point of the route. *)
Record SamplePoint := mkSample {
  lat : R;
  lon : R;
  time : R;
  geometryIndex : Z;
  isStart : bool;
  isEnd : bool
}.

(** A weather observation, [{temperature, precipitation, weatherCode}]. *)
Record WeatherObservation := mkWeather {
  temperature : R;
  precipitation : R;
  weatherCode : Z
}.

(** A sampled point with its weather ([{...point, weather}]) and the
    annotation of the filter, when it has one. *)
Record WeatherPoint := mkWP {
  sample : SamplePoint;
  weather : option WeatherObservation;
  significantReason : option string
}.

(** A coloured piece of the route.  The fallback segment of the source has a
    [precipitation] field and no [weather] field; the segments of the loop
    have a [weather] field (possibly [null]) and no [precipitation]. *)
Record RouteSegment := mkSegment {
  positions : list GeoPoint;
  color : string;
  segPrecipitation : option R;
  segWeather : option (option WeatherObservation)
}.

(** ** haversineDistance

    Over the reals the term [a] of the formula lies between 0 and 1.  In
    binary64 it can round just above 1 between two points that are nearly
    antipodal (and below 0 for latitudes beyond the poles); the square root
    of a negative number is NaN, and so is then the distance.  What is
    proved of the distance as a number is stated where that cannot happen
    ([regional] routes, nearby points). *)

Definition haversineDistance (lat1 lon1 lat2 lon2 : R) : R :=
  let Rkm := 6371 in
  let dLat := (lat2 - lat1) * PI / 180 in
  let dLon := (lon2 - lon1) * PI / 180 in
  let a := sin (dLat / 2) * sin (dLat / 2) +
           cos (lat1 * PI / 180) * cos (lat2 * PI / 180) *
           sin (dLon / 2) * sin (dLon / 2) in
  let c := 2 * JS.atan2 (sqrt a) (sqrt (1 - a)) in
  Rkm * c.

(** ** The cumulative distance table

    [let cumulativeDistances = [0]; for (i = 1; i < geometry.length; i++)
     cumulativeDistances.push(cumulativeDistances[i-1] + dist(g[i-1], g[i]))]:
    [cumulativeFrom acc prev rest] is the part of the table after an entry
    [acc] whose point is [prev]. *)
Fixpoint cumulativeFrom (acc : R) (prev : GeoPoint) (rest : list GeoPoint)
  : list R :=
  match rest with
  | [] => []
  | p :: rest' =>
      let dist := haversineDistance (fst prev) (snd prev) (fst p) (snd p) in
      (acc + dist) :: cumulativeFrom (acc + dist) p rest'
  end.

Definition cumulativeDistances (geometry : list GeoPoint) : list R :=
  0 :: match geometry with
       | [] => []
       | p :: rest => cumulativeFrom 0 p rest
       end.

(** [cumulativeDistances[cumulativeDistances.length - 1]]; the table is never
    empty. *)
Definition totalDistanceOf (cum : list R) : R := last cum 0.

(** The search [cum.findIndex(d => d >= target)] that the sampler and the
    segment builder both run on the table. *)
Definition search (target : R) (cum : list R) : Z :=
  JS.findIndex (fun d => JS.geb d target) cum.

(** ** Exceptions: the option monad *)

Definition bind {A B} (m : option A) (k : A -> option B) : option B :=
  match m with
  | Some a => k a
  | None => None
  end.

Notation "x <- m ;; k" := (bind m (fun x => k))
  (at level 61, m at next level, right associativity).

(** Runs [f] over the elements in order and stops at the first exception. *)
Fixpoint traverse {A B} (f : A -> option B) (l : list A) : option (list B) :=
  match l with
  | [] => Some []
  | x :: r => y <- f x ;; ys <- traverse f r ;; Some (y :: ys)
  end.

(** ** sampleRoutePoints *)

(** The body of the sampling loop for the counter [i]. *)
Definition sampleAt (geometry : list GeoPoint) (cumulativeDistances : list R)
    (totalDuration totalDistance startTime intervalSeconds : R) (i : Z)
  : option SamplePoint :=
  let elapsedTime := IZR i * intervalSeconds in
  let progress := elapsedTime / totalDuration in
  let targetDistance := progress * totalDistance in
  let segmentIndex :=
    JS.findIndex (fun d => JS.geb d targetDistance) cumulativeDistances in
  let segmentIndex := if (segmentIndex <=? 0)%Z then 1%Z else segmentIndex in
  segmentStart <- JS.get cumulativeDistances (segmentIndex - 1) ;;
  segmentEnd <- JS.get cumulativeDistances segmentIndex ;;
  let segmentProgress :=
    if Rgt_dec segmentEnd segmentStart
    then (targetDistance - segmentStart) / (segmentEnd - segmentStart)
    else 0 in
  g0 <- JS.get geometry (segmentIndex - 1) ;;
  g1 <- JS.get geometry segmentIndex ;;
  Some {| lat := fst g0 + segmentProgress * (fst g1 - fst g0);
          lon := snd g0 + segmentProgress * (snd g1 - snd g0);
          time := JS.newDate (startTime + elapsedTime * 1000);
          geometryIndex := segmentIndex;
          isStart := false;
          isEnd := false |}.

(** The counters [1 .. numIntervals] of the sampling loop. *)
Definition loopCounters (numIntervals : Z) : list Z :=
  map Z.of_nat (seq 1 (Z.to_nat numIntervals)).

(** The end of the function: the end point is pushed, or the last point is
    overwritten in place when it lies within 2 km of the end. *)
Definition closeRoute (geometry : list GeoPoint) (totalDuration startTime : R)
    (points : list SamplePoint) : option (list SamplePoint) :=
  lastGeometry <- JS.get geometry (JS.len geometry - 1) ;;
  let endTime := JS.newDate (startTime + totalDuration * 1000) in
  lastPoint <- JS.get points (JS.len points - 1) ;;
  let distToEnd :=
    haversineDistance (lat lastPoint) (lon lastPoint)
                      (fst lastGeometry) (snd lastGeometry) in
  if Rgt_dec distToEnd 2 then
    Some (points ++ [ {| lat := fst lastGeometry;
                         lon := snd lastGeometry;
                         time := endTime;
                         geometryIndex := JS.len geometry - 1;
                         isStart := false;
                         isEnd := true |} ])
  else
    Some (removelast points ++
          [ {| lat := fst lastGeometry;
               lon := snd lastGeometry;
               time := endTime;
               geometryIndex := JS.len geometry - 1;
               isStart := isStart lastPoint;
               isEnd := true |} ]).

(** [numIntervals] is the floor of the exact quotient.  The source takes
    the floor of the binary64 quotient: the same number when the interval
    is a whole number of seconds, and possibly one more otherwise (12.6
    seconds in intervals of 0.07 minutes give 3, not 2), in which case the
    last sample is taken after the arrival.  The start point is a copy of
    the start date. *)
Definition sampleRoutePoints (geometry : list GeoPoint)
    (totalDuration startTime intervalMinutes : R)
  : option (list SamplePoint) :=
  let intervalSeconds := intervalMinutes * 60 in
  let numIntervals := JS.floor (totalDuration / intervalSeconds) in
  let cumulativeDistances := cumulativeDistances geometry in
  let totalDistance := totalDistanceOf cumulativeDistances in
  g0 <- JS.get geometry 0 ;;
  let startPoint := {| lat := fst g0; lon := snd g0;
                       time := JS.newDate startTime;
                       geometryIndex := 0; isStart := true;
                       isEnd := false |} in
  sampled <- traverse (sampleAt geometry cumulativeDistances totalDuration
                         totalDistance startTime intervalSeconds)
                      (loopCounters numIntervals) ;;
  closeRoute geometry totalDuration startTime (startPoint :: sampled).

(** ** The arithmetic of the sampling loop in binary64

    The same expressions on the numbers of the language (the primitive
    floats of the kernel), to evaluate them on the concrete inputs where
    rounding makes them depart from the reals.  The distances come from
    [Math.sin], [Math.cos] and [Math.atan2], which are not part of the
    format: the table of cumulative distances is an argument. *)

Module Binary64.

Import Floats.

(** [Math.floor] of a finite number, as an integer. *)
Definition floor (x : float) : Z :=
  match Prim2SF x with
  | S754_finite s m e =>
      let n := if s then Z.neg m else Z.pos m in
      if (0 <=? e)%Z then (n * 2 ^ e)%Z else (n / 2 ^ (- e))%Z
  | _ => 0%Z
  end.

(** A loop counter as a number. *)
Definition ofZ (z : Z) : float := PrimFloat.of_uint63 (Uint63.of_Z z).

Definition intervalSeconds (intervalMinutes : float) : float :=
  (intervalMinutes * 60)%float.

Definition numIntervals (totalDuration intervalMinutes : float) : Z :=
  floor (totalDuration / intervalSeconds intervalMinutes)%float.

(** [segmentIndex] in the body of the loop for the counter [i]. *)
Definition segmentIndexAt (cumulativeDistances : list float)
    (totalDuration intervalMinutes : float) (i : Z) : Z :=
  let totalDistance := last cumulativeDistances 0%float in
  let elapsedTime := (ofZ i * intervalSeconds intervalMinutes)%float in
  let progress := (elapsedTime / totalDuration)%float in
  let targetDistance := (progress * totalDistance)%float in
  let segmentIndex :=
    JS.findIndex (fun d => PrimFloat.leb targetDistance d)
                 cumulativeDistances in
  if (segmentIndex <=? 0)%Z then 1%Z else segmentIndex.

End Binary64.

(** ** filterSignificantWeatherPoints *)

Definition hasPrecipitation (point : WeatherPoint) : bool :=
  match weather point with
  | Some w => JS.gtb (precipitation w) 0
  | None => false
  end.

Definition isRainyCode (code : Z) : bool := (code >=? 51)%Z.

Definition weatherCategory (code : Z) : string :=
  if (code <=? 3)%Z then "clear"
  else if (code <=? 48)%Z then "fog"
  else if (code <=? 67)%Z then "rain"
  else if (code <=? 77)%Z then "snow"
  else if (code <=? 82)%Z then "showers"
  else "storm".

(** [{ ...point, significantReason: reason }]. *)
Definition withReason (point : WeatherPoint) (reason : string) : WeatherPoint :=
  {| sample := sample point;
     weather := weather point;
     significantReason := Some reason |}.

(** The body of the first loop: [(isSignificant, reason)] for a point and
    its predecessor ([None] at index 0). *)
Definition classify (point : WeatherPoint) (prevPoint : option WeatherPoint)
  : bool * string :=
  let isSignificant := false in
  let reason := EmptyString in
  let '(isSignificant, reason) :=
    if isStart (sample point) || isEnd (sample point)
    then (true, if isStart (sample point) then "start" else "end")%string
    else (isSignificant, reason) in
  match prevPoint with
  | Some prevPoint =>
      match weather point, weather prevPoint with
      | Some w, Some pw =>
          let currentRain :=
            hasPrecipitation point || isRainyCode (weatherCode w) in
          let prevRain :=
            hasPrecipitation prevPoint || isRainyCode (weatherCode pw) in
          let '(isSignificant, reason) :=
            if negb (Bool.eqb currentRain prevRain)
            then (true, if currentRain then "rain_start" else "rain_end")%string
            else (isSignificant, reason) in
          let tempDiff := Rabs (temperature w - temperature pw) in
          let '(isSignificant, reason) :=
            if Rgt_dec tempDiff 3
            then (true, "temp_change"%string)
            else (isSignificant, reason) in
          if negb (String.eqb (weatherCategory (weatherCode w))
                              (weatherCategory (weatherCode pw)))
          then (true, "weather_change"%string)
          else (isSignificant, reason)
      | _, _ => (isSignificant, reason)
      end
  | None => (isSignificant, reason)
  end.

(** The first loop: the significant points, annotated, in input order.
    The variable [lastSignificantIndex] of the source is written and never
    read; it is left out. *)
Fixpoint classifyLoop (prevPoint : option WeatherPoint)
    (weatherPoints : list WeatherPoint) : list WeatherPoint :=
  match weatherPoints with
  | [] => []
  | point :: rest =>
      let '(isSignificant, reason) := classify point prevPoint in
      (if isSignificant then [withReason point reason] else [])
        ++ classifyLoop (Some point) rest
  end.

Definition sameTime (a b : WeatherPoint) : bool :=
  JS.eqb (time (sample a)) (time (sample b)).

(** The second loop, [for (i = interval; i < length - 1; i += interval)],
    with the number of iterations left as fuel. *)
Fixpoint injectLoop (fuel : nat) (i interval : nat)
    (weatherPoints significant : list WeatherPoint) : list WeatherPoint :=
  match fuel with
  | O => significant
  | S fuel' =>
      if (i <? length weatherPoints - 1)%nat then
        match nth_error weatherPoints i with
        | Some wp =>
            let significant' :=
              match JS.find (fun p => sameTime p wp) significant with
              | Some _ => significant
              | None => significant ++ [withReason wp "interval"]
              end in
            injectLoop fuel' (i + interval) interval weatherPoints significant'
        | None => significant
        end
      else significant
  end.

Definition byTime (a b : WeatherPoint) : bool :=
  JS.leb (time (sample a) - time (sample b)) 0.

(** The object literal [priority] of the comparator. *)
Definition priorityTable : list (string * Z) :=
  [ ("start", 0); ("end", 1); ("rain_start", 2); ("rain_end", 3);
    ("weather_change", 4); ("temp_change", 5); ("interval", 6) ]%string%Z.

(** [priority[key]]: [None] stands for [undefined]. *)
Definition priorityLookup (key : option string) : option Z :=
  match key with
  | Some k =>
      option_map snd (List.find (fun e => String.eqb (fst e) k) priorityTable)
  | None => None
  end.

(** [v || 6]: the right operand when the left one is falsy, which
    [undefined] and [0] both are. *)
Definition orSix (v : option Z) : Z :=
  match v with
  | Some 0%Z => 6
  | Some n => n
  | None => 6
  end.

Definition effectivePriority (p : WeatherPoint) : Z :=
  orSix (priorityLookup (significantReason p)).

Definition byPriority (a b : WeatherPoint) : bool :=
  (effectivePriority a - effectivePriority b <=? 0)%Z.

(** The array [significant] after the first two passes: classification,
    then, when fewer than four points were kept out of more than four, the
    injection of evenly spaced points and the sort by time. *)
Definition significantPoints (weatherPoints : list WeatherPoint)
  : list WeatherPoint :=
  let significant := classifyLoop None weatherPoints in
  if ((length significant <? 4) && (4 <? length weatherPoints))%nat
  then
    let interval := (length weatherPoints / 4)%nat in
    JS.sortBy byTime
      (injectLoop (length weatherPoints) interval interval
                  weatherPoints significant)
  else significant.

Definition filterSignificantWeatherPoints (weatherPoints : list WeatherPoint)
    (maxPoints : nat) : list WeatherPoint :=
  if (length weatherPoints <=? 3)%nat then weatherPoints
  else
    let significant := significantPoints weatherPoints in
    if (maxPoints <? length significant)%nat then
      let prioritized := JS.sortBy byPriority significant in
      JS.sortBy byTime (JS.slice prioritized 0 (Z.of_nat maxPoints))
    else significant.

(** ** createRouteSegments *)

Definition dangerousCodes : list Z :=
  [ 56; 57;          (* freezing drizzle *)
    66; 67;          (* freezing rain *)
    71; 73; 75; 77;  (* snow *)
    85; 86;          (* snow showers *)
    95; 96; 99       (* thunderstorm *) ]%Z.

Definition getColorForWeather (weather : option WeatherObservation) : string :=
  match weather with
  | None => "#94a3b8"
  | Some weather =>
      if JS.includes dangerousCodes (weatherCode weather) then "#ef4444"
      else
        let p := precipitation weather in
        if Rle_dec p 0 then "#22c55e"
        else if Rlt_dec p 0.5 then "#fbbf24"
        else if Rlt_dec p 2.0 then "#f97316"
        else "#ef4444"
  end.

(** The segment returned when there is nothing to colour. *)
Definition fullRoute (geometry : list GeoPoint) : RouteSegment :=
  {| positions := geometry;
     color := "#58a6ff";
     segPrecipitation := Some 0;
     segWeather := None |}.

(** The target distance of a weather point. *)
Definition targetDistanceOf (totalDuration totalDistance startTime : R)
    (p : WeatherPoint) : R :=
  let progress := (time (sample p) - startTime) / (totalDuration * 1000) in
  progress * totalDistance.

(** The geometry indices of a pair of target distances: the two searches and
    the four adjustments that follow them. *)
Definition resolveIndices (geometry : list GeoPoint)
    (cumulativeDistances : list R) (startDistance endDistance : R) : Z * Z :=
  let startIdx :=
    JS.findIndex (fun d => JS.geb d startDistance) cumulativeDistances in
  let endIdx :=
    JS.findIndex (fun d => JS.geb d endDistance) cumulativeDistances in
  let startIdx := if (startIdx <=? 0)%Z then 0%Z else startIdx in
  let endIdx := if (endIdx <=? 0)%Z then (JS.len geometry - 1)%Z else endIdx in
  let endIdx :=
    if (endIdx >=? JS.len geometry)%Z then (JS.len geometry - 1)%Z
    else endIdx in
  let startIdx := if (startIdx >? endIdx)%Z then endIdx else startIdx in
  (startIdx, endIdx).

(** The two halves of the positions of a pair, each kept when it has more
    than one point. *)
Definition splitInHalf (fullSegmentPositions : list GeoPoint)
    (w1 w2 : option WeatherObservation) : list RouteSegment :=
  if (JS.len fullSegmentPositions <? 2)%Z then []
  else
    let splitIndex := (JS.len fullSegmentPositions / 2)%Z in
    let positionsPart1 := JS.slice fullSegmentPositions 0 (splitIndex + 1) in
    let positionsPart2 := JS.sliceFrom fullSegmentPositions splitIndex in
    let color1 := getColorForWeather w1 in
    let color2 := getColorForWeather w2 in
    (if (JS.len positionsPart1 >? 1)%Z
     then [ {| positions := positionsPart1; color := color1;
               segPrecipitation := None; segWeather := Some w1 |} ]
     else [])
    ++
    (if (JS.len positionsPart2 >? 1)%Z
     then [ {| positions := positionsPart2; color := color2;
               segPrecipitation := None; segWeather := Some w2 |} ]
     else []).

(** The body of the loop for the pair [(startPoint, endPoint)]. *)
Definition segmentsOfPair (geometry : list GeoPoint)
    (cumulativeDistances : list R) (totalDuration totalDistance startTime : R)
    (startPoint endPoint : WeatherPoint) : list RouteSegment :=
  let startDistance :=
    targetDistanceOf totalDuration totalDistance startTime startPoint in
  let endDistance :=
    targetDistanceOf totalDuration totalDistance startTime endPoint in
  let '(startIdx, endIdx) :=
    resolveIndices geometry cumulativeDistances startDistance endDistance in
  let fullSegmentPositions := JS.slice geometry startIdx (endIdx + 1) in
  splitInHalf fullSegmentPositions (weather startPoint) (weather endPoint).

(** The loop over the consecutive pairs of weather points. *)
Fixpoint segmentLoop (geometry : list GeoPoint) (cumulativeDistances : list R)
    (totalDuration totalDistance startTime : R)
    (weatherPoints : list WeatherPoint) : list RouteSegment :=
  match weatherPoints with
  | startPoint :: ((endPoint :: _) as rest) =>
      segmentsOfPair geometry cumulativeDistances totalDuration totalDistance
                     startTime startPoint endPoint
        ++ segmentLoop geometry cumulativeDistances totalDuration
                       totalDistance startTime rest
  | _ => []
  end.

(** [weatherPoints] is [None] when the caller passes [null] or nothing. *)
Definition createRouteSegments (geometry : list GeoPoint)
    (weatherPoints : option (list WeatherPoint))
    (totalDuration startTime : R) : list RouteSegment :=
  match weatherPoints with
  | None => [fullRoute geometry]
  | Some weatherPoints =>
      if (JS.len weatherPoints <? 2)%Z then [fullRoute geometry]
      else
        let cumulativeDistances := cumulativeDistances geometry in
        let totalDistance := totalDistanceOf cumulativeDistances in
        let segments :=
          segmentLoop geometry cumulativeDistances totalDuration totalDistance
                      startTime weatherPoints in
        if (JS.len segments =? 0)%Z then [fullRoute geometry] else segments
  end.

(** ** The legend, the descriptions and the callers

    The functions below are the rest of the module and the pure parts of
    the components that call it. *)

Module Builtins.

(** The conversion of a number to an integer by truncation towards 0. *)
Definition trunc (x : R) : Z := JS.trunc x.

(** [a % b]: the remainder has the sign of the dividend. *)
Definition rem (a b : R) : R := a - b * IZR (trunc (a / b)).

(** The decimal digits of an integer. *)
Definition decimal (z : Z) : string := NilZero.string_of_int (Z.to_int z).

(** [`${n}`] for a number that holds an integer: its decimal digits, below
    [10^21] in magnitude.  From [10^21] on the language prints a number in
    exponent notation, which is left out here ([None]). *)
Definition showInt (z : Z) : option string :=
  if (Z.abs z <? 10 ^ 21)%Z then Some (decimal z) else None.

(** [arr[i]] on an array whose elements may be [undefined]: a missing
    element reads as [undefined] too. *)
Definition getAt {A} (arr : list (option A)) (i : Z) : option A :=
  match JS.get arr i with
  | Some v => v
  | None => None
  end.

(** [arr[i] = v]: inside the array the element is replaced; at or beyond
    the length the array grows, the new elements in between being
    [undefined]; a negative key is a property and changes no element. *)
Definition setAt {A} (arr : list (option A)) (i : Z) (v : option A)
  : list (option A) :=
  if (i <? 0)%Z then arr
  else
    let k := Z.to_nat i in
    if (k <? length arr)%nat then firstn k arr ++ v :: skipn (S k) arr
    else arr ++ repeat None (k - length arr) ++ [v].

End Builtins.

(** [getPrecipitationColor], the colour of the legend. *)
Definition getPrecipitationColor (precipitation : R) : string :=
  if Req_dec_T precipitation 0 then "#22c55e"
  else if Rlt_dec precipitation 0.5 then "#fbbf24"
  else if Rlt_dec precipitation 2.0 then "#f97316"
  else "#ef4444".

(** The object literal [descriptions] of [getWeatherDescription]. *)
Definition descriptions : list (Z * string) :=
  [ (0, "Cielo despejado"); (1, "Mayormente despejado");
    (2, "Parcialmente nublado"); (3, "Nublado");
    (45, "Niebla"); (48, "Niebla con escarcha");
    (51, "Llovizna ligera"); (53, "Llovizna moderada");
    (55, "Llovizna intensa"); (56, "Llovizna helada ligera");
    (57, "Llovizna helada intensa");
    (61, "Lluvia ligera"); (63, "Lluvia moderada"); (65, "Lluvia intensa");
    (66, "Lluvia helada ligera"); (67, "Lluvia helada intensa");
    (71, "Nevada ligera"); (73, "Nevada moderada"); (75, "Nevada intensa");
    (77, "Granos de nieve");
    (80, "Chubascos ligeros"); (81, "Chubascos moderados");
    (82, "Chubascos violentos");
    (85, "Chubascos de nieve ligeros"); (86, "Chubascos de nieve intensos");
    (95, "Tormenta"); (96, "Tormenta con granizo ligero");
    (99, "Tormenta con granizo intenso") ]%Z%string.

(** [descriptions[code] || 'Desconocido']: every description is a
    non-empty string, so the right operand is taken only for a code that is
    not a key. *)
Definition getWeatherDescription (code : Z) : string :=
  match List.find (fun e => Z.eqb (fst e) code) descriptions with
  | Some e => snd e
  | None => "Desconocido"
  end.

(** [formatDuration], of the application and of the map. *)
Definition formatDuration (seconds : R) : option string :=
  let hours := JS.floor (seconds / 3600) in
  let minutes := JS.floor (Builtins.rem seconds 3600 / 60) in
  if (hours >? 0)%Z
  then h <- Builtins.showInt hours ;;
       m <- Builtins.showInt minutes ;;
       Some (h ++ "h " ++ m ++ "min")%string
  else m <- Builtins.showInt minutes ;;
       Some (m ++ "min")%string.

(** The update of the stops in [handleMoveStop]: the function given to
    [setStops].  The array is copied, the element at [index] is exchanged
    with its neighbour, and the previous array is returned when the
    neighbour does not exist. *)
Definition moveStop {A} (prev : list (option A)) (index : Z)
    (direction : string) : list (option A) :=
  let newStops := prev in
  let targetIndex :=
    if String.eqb direction "up" then (index - 1)%Z else (index + 1)%Z in
  if (targetIndex <? 0)%Z || (targetIndex >=? JS.len newStops)%Z then prev
  else
    let atTarget := Builtins.getAt newStops targetIndex in
    let atIndex := Builtins.getAt newStops index in
    Builtins.setAt (Builtins.setAt newStops index atTarget)
                   targetIndex atIndex.



(** ** Notions of the specification

    The definitions below are not in the source: they state, in the words of
    the specification, what the properties compare the code with. *)

(** The priorities the specification gives to the reasons: [start] = 0,
    [end] = 1, [rain_start] = 2, [rain_end] = 3, [weather_change] = 4,
    [temp_change] = 5, [interval] = 6, anything else 6. *)
Definition specPriority (p : WeatherPoint) : Z :=
  match priorityLookup (significantReason p) with
  | Some n => n
  | None => 6%Z
  end.

(** An index clamped to the range [0 .. n - 1]. *)
Definition clampIndex (n : Z) (i : Z) : Z := Z.max 0 (Z.min i (n - 1)).

(** The index resolution as the specification words it: each target is
    mapped by the first-index search, the result is clamped to
    [0 .. geometry.length - 1], and a start beyond the end collapses to the
    end. *)
Definition specResolveIndices (geometry : list GeoPoint)
    (cumulativeDistances : list R) (startDistance endDistance : R) : Z * Z :=
  let startIdx :=
    clampIndex (JS.len geometry) (search startDistance cumulativeDistances) in
  let endIdx :=
    clampIndex (JS.len geometry) (search endDistance cumulativeDistances) in
  (if (startIdx >? endIdx)%Z then endIdx else startIdx, endIdx).




(** The [n] points of the route from index [a] on. *)
Definition subPath (geometry : list GeoPoint) (a n : nat) : list GeoPoint :=
  firstn n (skipn a geometry).

(** The great-circle distance of the specification, by the haversine
    formula on a sphere of radius 6371 km: [2 R asin (sqrt a)] with
    [a = hav (lat2 - lat1) + cos lat1 cos lat2 hav (lon2 - lon1)], the
    angles in radians and [hav x = sin^2 (x / 2)]. *)
Definition specGreatCircle (lat1 lon1 lat2 lon2 : R) : R :=
  let rad (degrees : R) := degrees * PI / 180 in
  let hav (x : R) := sin (x / 2) * sin (x / 2) in
  let a := hav (rad lat2 - rad lat1) +
           cos (rad lat1) * cos (rad lat2) * hav (rad lon2 - rad lon1) in
  6371 * (2 * asin (sqrt a)).

(** ** Notions used by the properties *)

(** A point that carries [isStart] or [isEnd]. *)
Definition flagged (p : WeatherPoint) : bool :=
  isStart (sample p) || isEnd (sample p).

(** The order of the weather points in time. *)
Definition timeLe (a b : WeatherPoint) : Prop :=
  time (sample a) <= time (sample b).


(** A pair of weather points is degenerate when the slice of the route
    between its two indices has fewer than two points. *)
Definition degeneratePair (geometry : list GeoPoint)
    (totalDuration startTime : R) (a b : WeatherPoint) : Prop :=
  let cum := cumulativeDistances geometry in
  let target := targetDistanceOf totalDuration (totalDistanceOf cum)
                                 startTime in
  let '(startIdx, endIdx) :=
    resolveIndices geometry cum (target a) (target b) in
  (length (JS.slice geometry startIdx (endIdx + 1)) < 2)%nat.


(** A sampled point that lies on a leg of the route: between the vertices
    [j] and [j + 1], at the fraction [s] of the way in latitude and in
    longitude; its [geometryIndex] is the upper vertex [j + 1], or 0 for
    the start of the route. *)
Definition onLeg (geometry : list GeoPoint) (p : SamplePoint) : Prop :=
  exists (j : nat) (g0 g1 : GeoPoint) (s : R),
    nth_error geometry j = Some g0 /\
    nth_error geometry (S j) = Some g1 /\
    0 <= s <= 1 /\
    lat p = fst g0 + s * (fst g1 - fst g0) /\
    lon p = snd g0 + s * (snd g1 - snd g0) /\
    (geometryIndex p = Z.of_nat (S j) \/
     (geometryIndex p = 0%Z /\ j = 0%nat /\ s = 0)).

(** ** Where the binary64 evaluation agrees with the reals *)

(** A whole number: an interval of whole seconds, a time value of whole
    milliseconds (every date has one). *)
Definition whole (x : R) : Prop := exists z : Z, x = IZR z.

(** A number of binary64: a mantissa below [2^53] scaled by a power of two
    in the range of the format.  An operation whose exact result is such a
    number is not rounded. *)
Definition binary64 (x : R) : Prop :=
  exists m e : Z,
    (Z.abs m < 2 ^ 53)%Z /\ (-1074 <= e <= 971)%Z /\
    x = IZR m * powerRZ 2 e.

(** A time value well inside the range of the valid dates, which ends at
    8.64e15 milliseconds on either side of the epoch. *)
Definition dateRange (t : R) : Prop := Rabs t <= 8000000000000000.

(** A route with valid latitudes that stays inside a box of 90 degrees of
    latitude by 90 degrees of longitude.  Between two points of such a box
    the term [a] of the haversine formula is at most 3/4, far from the
    values 0 and 1 at which rounding can put a negative number under a
    square root. *)
Definition regional (geometry : list GeoPoint) : Prop :=
  exists lat0 lon0 : R,
    Forall (fun p => -90 <= fst p <= 90 /\
                     lat0 <= fst p <= lat0 + 90 /\
                     lon0 <= snd p <= lon0 + 90)
           geometry.

(** ** Example inputs *)

Module Example.

(** Four weather points a quarter of an hour apart: dry at the start, rain
    at the second point, dry again at the third, no observation at the
    end. *)
Definition dry : WeatherObservation :=
  {| temperature := 20; precipitation := 0; weatherCode := 0 |}.
Definition rain : WeatherObservation :=
  {| temperature := 20; precipitation := 1; weatherCode := 61 |}.

Definition at0 : WeatherPoint :=
  {| sample := {| lat := 0; lon := 0; time := 0; geometryIndex := 0;
                  isStart := true; isEnd := false |};
     weather := Some dry; significantReason := None |}.
Definition at15 : WeatherPoint :=
  {| sample := {| lat := 0; lon := 1 / 100; time := 900000;
                  geometryIndex := 1; isStart := false; isEnd := false |};
     weather := Some rain; significantReason := None |}.
Definition at30 : WeatherPoint :=
  {| sample := {| lat := 0; lon := 2 / 100; time := 1800000;
                  geometryIndex := 2; isStart := false; isEnd := false |};
     weather := Some dry; significantReason := None |}.
Definition at45 : WeatherPoint :=
  {| sample := {| lat := 0; lon := 3 / 100; time := 2700000;
                  geometryIndex := 3; isStart := false; isEnd := true |};
     weather := None; significantReason := None |}.

Definition trip : list WeatherPoint := [at0; at15; at30; at45].

(** A weather point that carries no flag and no observation. *)
Definition plain (t : R) : WeatherPoint :=
  {| sample := {| lat := 0; lon := 0; time := t; geometryIndex := 0;
                  isStart := false; isEnd := false |};
     weather := None; significantReason := None |}.

(** A route of three points along the equator, 1.1 km apart. *)
Definition route : list GeoPoint := [(0, 0); (0, 1 / 100); (0, 2 / 100)].

(** A weather point with no observation, taken at the start time 0. *)
Definition atStart : WeatherPoint :=
  {| sample := {| lat := 0; lon := 0; time := 0; geometryIndex := 0;
                  isStart := true; isEnd := false |};
     weather := None; significantReason := None |}.

End Example.

(** * Properties *)

(** ** The distance accumulator *)

Section DistanceAccumulator.

Lemma atan2_nonneg (y x : R) : 0 <= y -> 0 <= x -> 0 <= JS.atan2 y x.
Proof.
  intros Hy Hx. unfold JS.atan2.
  destruct (Rlt_dec 0 x) as [Hpos|Hnpos].
  - assert (Hq : 0 <= y / x).
    { apply Rmult_le_pos; [exact Hy|].
      left. apply Rinv_0_lt_compat. exact Hpos. }
    destruct Hq as [Hq|Hq].
    + left. rewrite <- atan_0. apply atan_increasing. exact Hq.
    + rewrite <- Hq, atan_0. lra.
  - destruct (Rlt_dec x 0) as [Hneg|_]; [lra|].
    destruct (Rlt_dec 0 y) as [_|_].
    + pose proof PI_RGT_0. lra.
    + destruct (Rlt_dec y 0); lra.
Qed.

Lemma haversineDistance_nonneg (lat1 lon1 lat2 lon2 : R) :
  0 <= haversineDistance lat1 lon1 lat2 lon2.
Proof.
  unfold haversineDistance. cbv zeta.
  match goal with
  | |- 0 <= _ * (2 * JS.atan2 ?y ?x) =>
      pose proof (atan2_nonneg y x (sqrt_pos _) (sqrt_pos _))
  end.
  nra.
Qed.

(** The two-argument arctangent of the formula is the arcsine of the
    textbook form. *)
Lemma atan2_asin (a : R) : JS.atan2 (sqrt a) (sqrt (1 - a)) = asin (sqrt a).
Proof.
  destruct (Rle_dec a 0) as [Hneg|Hpos].
  - rewrite (sqrt_neg_0 a Hneg), asin_0. unfold JS.atan2.
    assert (Hx : 0 < sqrt (1 - a)) by (apply sqrt_lt_R0; lra).
    destruct (Rlt_dec 0 (sqrt (1 - a))) as [_|Hno]; [|lra].
    unfold Rdiv. rewrite Rmult_0_l. apply atan_0.
  - destruct (Rlt_dec a 1) as [Hlt|Hge].
    + assert (Hx : 0 < sqrt (1 - a)) by (apply sqrt_lt_R0; lra).
      assert (Hy : sqrt a < 1)
        by (rewrite <- sqrt_1; apply sqrt_lt_1_alt; lra).
      pose proof (sqrt_pos a) as Hy0.
      rewrite asin_atan by lra. rewrite Rsqr_sqrt by lra.
      unfold JS.atan2. destruct (Rlt_dec 0 (sqrt (1 - a))) as [_|Hno];
        [reflexivity|lra].
    + assert (Hx : sqrt (1 - a) = 0) by (apply sqrt_neg_0; lra).
      assert (Hy : 1 <= sqrt a)
        by (rewrite <- sqrt_1; apply sqrt_le_1_alt; lra).
      rewrite Hx. unfold JS.atan2, asin.
      destruct (Rlt_dec 0 0) as [Hno|_]; [lra|].
      destruct (Rlt_dec 0 (sqrt a)) as [_|Hno]; [|lra].
      destruct (Rle_dec (sqrt a) (-1)) as [Hno|_]; [lra|].
      destruct (Rle_dec 1 (sqrt a)) as [_|Hno]; [reflexivity|lra].
Qed.

(** [haversineDistance] computes the great-circle distance of the
    specification. *)
Lemma haversineDistance_spec (lat1 lon1 lat2 lon2 : R) :
  haversineDistance lat1 lon1 lat2 lon2 =
  specGreatCircle lat1 lon1 lat2 lon2.
Proof.
  unfold haversineDistance, specGreatCircle. cbv zeta.
  rewrite atan2_asin.
  replace (lat2 * PI / 180 - lat1 * PI / 180)
    with ((lat2 - lat1) * PI / 180) by lra.
  replace (lon2 * PI / 180 - lon1 * PI / 180)
    with ((lon2 - lon1) * PI / 180) by lra.
  do 4 f_equal. ring.
Qed.

Lemma cumulativeFrom_length (rest : list GeoPoint) :
  forall acc prev, length (cumulativeFrom acc prev rest) = length rest.
Proof.
  induction rest as [|p rest IH]; intros acc prev; simpl.
  - reflexivity.
  - now rewrite IH.
Qed.

Lemma cumulativeDistances_length (geometry : list GeoPoint) :
  length (cumulativeDistances geometry) = Nat.max 1 (length geometry).
Proof.
  destruct geometry as [|p rest]; simpl.
  - reflexivity.
  - now rewrite cumulativeFrom_length.
Qed.

(** The recurrence, on the table that starts at an entry [acc]. *)
Lemma cumulativeFrom_step (rest : list GeoPoint) :
  forall acc prev i a b,
    nth_error (prev :: rest) i = Some a ->
    nth_error (prev :: rest) (S i) = Some b ->
    exists d,
      nth_error (acc :: cumulativeFrom acc prev rest) i = Some d /\
      nth_error (acc :: cumulativeFrom acc prev rest) (S i) =
        Some (d + haversineDistance (fst a) (snd a) (fst b) (snd b)).
Proof.
  induction rest as [|p rest IH]; intros acc prev i a b Ha Hb.
  - destruct i; simpl in Hb; [discriminate|destruct i; discriminate].
  - destruct i as [|i].
    + simpl in Ha, Hb. injection Ha as <-. injection Hb as <-.
      exists acc. split; reflexivity.
    + change (nth_error (p :: rest) i = Some a) in Ha.
      change (nth_error (p :: rest) (S i) = Some b) in Hb.
      destruct (IH (acc + haversineDistance (fst prev) (snd prev)
                                            (fst p) (snd p)) p i a b Ha Hb)
        as [d [H1 H2]].
      exists d. split; [exact H1|exact H2].
Qed.

Lemma cumulativeFrom_sorted (rest : list GeoPoint) :
  forall acc prev, StronglySorted Rle (acc :: cumulativeFrom acc prev rest).
Proof.
  induction rest as [|p rest IH]; intros acc prev; simpl.
  - constructor; constructor.
  - set (d := acc + haversineDistance (fst prev) (snd prev) (fst p) (snd p)).
    assert (Hd : acc <= d).
    { unfold d.
      pose proof (haversineDistance_nonneg (fst prev) (snd prev)
                                           (fst p) (snd p)). lra. }
    specialize (IH d p). constructor; [exact IH|].
    constructor; [exact Hd|].
    apply StronglySorted_inv in IH. destruct IH as [_ Hall].
    eapply Forall_impl; [|exact Hall]. intros x Hx. simpl in Hx. lra.
Qed.

Lemma cumulativeDistances_sorted (geometry : list GeoPoint) :
  StronglySorted Rle (cumulativeDistances geometry).
Proof.
  destruct geometry as [|p rest]; simpl.
  - constructor; constructor.
  - apply cumulativeFrom_sorted.
Qed.

Lemma StronglySorted_nth_error {A} (Rel : A -> A -> Prop) (l : list A) :
  StronglySorted Rel l ->
  forall i j x y, (i < j)%nat ->
    nth_error l i = Some x -> nth_error l j = Some y -> Rel x y.
Proof.
  induction 1 as [|a l Hs IH Hall]; intros i j x y Hij Hx Hy.
  - destruct i; discriminate.
  - destruct j as [|j]; [lia|]. simpl in Hy.
    destruct i as [|i]; simpl in Hx.
    + injection Hx as <-. rewrite Forall_forall in Hall.
      apply Hall. eapply nth_error_In. exact Hy.
    + apply (IH i j); [lia|assumption|assumption].
Qed.

Lemma last_In {A} (l : list A) (d : A) : l <> [] -> In (last l d) l.
Proof.
  intros Hne. destruct (exists_last Hne) as [b [x ->]].
  rewrite last_last. apply in_or_app. right. now left.
Qed.

Lemma cumulativeDistances_last_nonneg (geometry : list GeoPoint) :
  0 <= totalDistanceOf (cumulativeDistances geometry).
Proof.
  unfold totalDistanceOf.
  pose proof (cumulativeDistances_sorted geometry) as Hs.
  unfold cumulativeDistances in *.
  destruct (match geometry with
            | [] => []
            | p :: rest => cumulativeFrom 0 p rest
            end) as [|d ds]; [simpl; lra|].
  apply StronglySorted_inv in Hs. destruct Hs as [_ Hall].
  rewrite Forall_forall in Hall. apply Hall.
  change (last (0 :: d :: ds) 0) with (last (d :: ds) 0).
  apply last_In. discriminate.
Qed.

End DistanceAccumulator.

(** ** Array built-ins *)

Section Arrays.

Context {A : Type}.

Lemma get_in_range (arr : list A) (i : Z) :
  (0 <= i < JS.len arr)%Z -> exists x, JS.get arr i = Some x.
Proof.
  intros [Hlo Hhi]. unfold JS.get, JS.len in *.
  destruct (Z.ltb_spec i 0) as [Hneg|_]; [lia|].
  destruct (nth_error arr (Z.to_nat i)) as [x|] eqn:E.
  - now exists x.
  - apply nth_error_None in E. lia.
Qed.

Lemma get_nth_error (arr : list A) (k : nat) :
  JS.get arr (Z.of_nat k) = nth_error arr k.
Proof.
  unfold JS.get. destruct (Z.ltb_spec (Z.of_nat k) 0) as [Hneg|_]; [lia|].
  now rewrite Nat2Z.id.
Qed.

Lemma get_last (arr : list A) (d : A) :
  arr <> [] -> JS.get arr (JS.len arr - 1) = Some (last arr d).
Proof.
  intros Hne. destruct (exists_last Hne) as [body [x ->]].
  unfold JS.len. rewrite length_app, last_last. simpl.
  replace (Z.of_nat (length body + 1) - 1)%Z with (Z.of_nat (length body))
    by lia.
  rewrite get_nth_error, nth_error_app2 by lia.
  now rewrite Nat.sub_diag.
Qed.

Lemma get_head (arr : list A) (d : A) :
  arr <> [] -> JS.get arr 0 = Some (nth 0 arr d).
Proof. destruct arr as [|x rest]; [congruence|reflexivity]. Qed.

Variable f : A -> bool.

Lemma findIndexFrom_range (arr : list A) :
  forall i, JS.findIndexFrom f arr i = (-1)%Z \/
            (i <= JS.findIndexFrom f arr i < i + JS.len arr)%Z.
Proof.
  induction arr as [|x rest IH]; intros i; simpl.
  - now left.
  - destruct (f x).
    + right. unfold JS.len. simpl length. lia.
    + destruct (IH (i + 1)%Z) as [H|H]; [now left|right].
      unfold JS.len in *. simpl length. lia.
Qed.

Lemma findIndex_range (arr : list A) :
  (-1 <= JS.findIndex f arr < JS.len arr)%Z.
Proof.
  unfold JS.findIndex.
  destruct (findIndexFrom_range arr 0) as [H|H]; [|lia].
  rewrite H. unfold JS.len. lia.
Qed.

(** The element found satisfies the test, and nothing before it does. *)
Lemma findIndexFrom_first (arr : list A) :
  forall i k, (0 <= i)%Z ->
    JS.findIndexFrom f arr i = (i + Z.of_nat k)%Z ->
    (exists x, nth_error arr k = Some x /\ f x = true) /\
    (forall j y, (j < k)%nat -> nth_error arr j = Some y -> f y = false).
Proof.
  induction arr as [|x rest IH]; intros i k Hi Hk; simpl in Hk.
  - lia.
  - destruct (f x) eqn:Hfx.
    + assert (k = 0%nat) by lia. subst k. split.
      * exists x. now split.
      * intros j y Hj. lia.
    + destruct (findIndexFrom_range rest (i + 1)) as [H|H]; [lia|].
      destruct k as [|k]; [lia|].
      destruct (IH (i + 1)%Z k) as [Hex Hbefore]; [lia|lia|].
      split; [exact Hex|].
      intros j y Hj Hy. destruct j as [|j]; simpl in Hy.
      * now injection Hy as <-.
      * apply (Hbefore j); [lia|exact Hy].
Qed.

(** A search fails only when no element satisfies the test. *)
Lemma findIndexFrom_none (arr : list A) :
  forall i, (0 <= i)%Z ->
    JS.findIndexFrom f arr i = (-1)%Z -> forall x, In x arr -> f x = false.
Proof.
  induction arr as [|y rest IH]; intros i Hi Hr x Hx; simpl in *.
  - contradiction.
  - destruct (f y) eqn:Hfy; [lia|].
    destruct Hx as [<-|Hx]; [exact Hfy|].
    apply (IH (i + 1)%Z); [lia|exact Hr|exact Hx].
Qed.

End Arrays.

(** ** The threshold search [findIndex(d => d >= target)] *)

Section ThresholdSearch.

Lemma geb_true (a b : R) : JS.geb a b = true <-> b <= a.
Proof.
  unfold JS.geb. destruct (Rge_dec a b) as [H|H]; split; intros H'.
  - lra.
  - reflexivity.
  - discriminate.
  - lra.
Qed.

Lemma search_range (target : R) (cum : list R) :
  (-1 <= search target cum < JS.len cum)%Z.
Proof. apply findIndex_range. Qed.

(** A target no greater than the last entry is found. *)
Lemma search_found (target : R) (cum : list R) :
  cum <> [] -> target <= last cum 0 -> (0 <= search target cum)%Z.
Proof.
  intros Hne Hle. pose proof (search_range target cum) as Hr.
  destruct (Z.eq_dec (search target cum) (-1)) as [E|E]; [|lia].
  exfalso. unfold search, JS.findIndex in E.
  assert (Hin : In (last cum 0) cum).
  { destruct (exists_last Hne) as [body [x ->]].
    rewrite last_last. apply in_or_app. right. now left. }
  pose proof (findIndexFrom_none _ cum 0 ltac:(lia) E _ Hin) as Hf.
  simpl in Hf. apply not_true_iff_false in Hf. apply Hf.
  now apply geb_true.
Qed.


(** The search is monotone in the target, as long as the greater target
    is found. *)
Lemma search_monotone (s t : R) (cum : list R) :
  s <= t -> (0 <= search t cum)%Z ->
  (0 <= search s cum <= search t cum)%Z.
Proof.
  intros Hst Ht. pose proof (search_range s cum) as Hrs.
  unfold search, JS.findIndex in *.
  set (ft := fun d => JS.geb d t) in *.
  set (fs := fun d => JS.geb d s) in *.
  destruct (findIndexFrom_first ft cum 0
              (Z.to_nat (JS.findIndexFrom ft cum 0)) ltac:(lia) ltac:(lia))
    as [[x [Hx Hfx]] _].
  assert (Hsx : fs x = true).
  { unfold fs, ft in *. apply geb_true. apply geb_true in Hfx. lra. }
  destruct (Z.eq_dec (JS.findIndexFrom fs cum 0) (-1)) as [E|E].
  - pose proof (findIndexFrom_none fs cum 0 ltac:(lia) E x
                  (nth_error_In _ _ Hx)) as Hc.
    congruence.
  - split; [lia|].
    destruct (Z_le_gt_dec (JS.findIndexFrom fs cum 0)
                          (JS.findIndexFrom ft cum 0)) as [Hle|Hgt];
      [exact Hle|exfalso].
    destruct (findIndexFrom_first fs cum 0
                (Z.to_nat (JS.findIndexFrom fs cum 0)) ltac:(lia) ltac:(lia))
      as [_ Hbefore].
    specialize (Hbefore (Z.to_nat (JS.findIndexFrom ft cum 0)) x
                  ltac:(lia) Hx).
    congruence.
Qed.

(** The entry before the one found lies below the target. *)
Lemma search_previous (target : R) (cum : list R) (k : nat) (d : R) :
  search target cum = Z.of_nat (S k) -> nth_error cum k = Some d ->
  d < target.
Proof.
  intros Hs Hd. unfold search, JS.findIndex in Hs.
  destruct (findIndexFrom_first (fun d => JS.geb d target) cum 0 (S k)
              ltac:(lia) ltac:(lia)) as [_ Hbefore].
  specialize (Hbefore k d ltac:(lia) Hd). simpl in Hbefore.
  apply not_true_iff_false in Hbefore.
  destruct (Rlt_dec d target) as [Hlt|Hnlt]; [exact Hlt|].
  exfalso. apply Hbefore. apply geb_true. lra.
Qed.

End ThresholdSearch.

(** ** The temporal sampler *)

Section Traverse.

Context {A B : Type}.
Variable f : A -> option B.

Lemma traverse_total (l : list A) :
  (forall x, In x l -> exists y, f x = Some y) ->
  exists ys, traverse f l = Some ys.
Proof.
  induction l as [|x r IH]; intros Hall; simpl.
  - now exists [].
  - destruct (Hall x (or_introl eq_refl)) as [y Hy].
    destruct IH as [ys Hys]; [intros z Hz; apply Hall; now right|].
    exists (y :: ys). now rewrite Hy, Hys.
Qed.

Lemma traverse_Forall2 (l : list A) :
  forall ys, traverse f l = Some ys -> Forall2 (fun x y => f x = Some y) l ys.
Proof.
  induction l as [|x r IH]; intros ys H; simpl in H.
  - injection H as <-. constructor.
  - destruct (f x) as [y|] eqn:Hy; simpl in H; [|discriminate].
    destruct (traverse f r) as [ys'|]; simpl in H; [|discriminate].
    injection H as <-. constructor; [exact Hy|now apply IH].
Qed.

End Traverse.

Section Orderings.

Context {A : Type}.
Variable Rel : A -> A -> Prop.

Lemma StronglySorted_of_nth_error (l : list A) :
  (forall i j x y, (i < j)%nat ->
     nth_error l i = Some x -> nth_error l j = Some y -> Rel x y) ->
  StronglySorted Rel l.
Proof.
  induction l as [|a l IH]; intros H.
  - constructor.
  - constructor.
    + apply IH. intros i j x y Hij Hx Hy.
      apply (H (S i) (S j)); [lia|exact Hx|exact Hy].
    + apply Forall_forall. intros y Hy.
      destruct (In_nth_error _ _ Hy) as [j Hj].
      apply (H 0%nat (S j)); [lia|reflexivity|exact Hj].
Qed.

Lemma StronglySorted_snoc (l : list A) (e : A) :
  StronglySorted Rel l -> Forall (fun x => Rel x e) l ->
  StronglySorted Rel (l ++ [e]).
Proof.
  induction 1 as [|a l Hs IH Hall]; intros He; simpl.
  - constructor; constructor.
  - inversion He as [|? ? Hae Hle]; subst. constructor.
    + now apply IH.
    + apply Forall_app. split; [exact Hall|]. constructor; [exact Hae|].
      constructor.
Qed.

Lemma StronglySorted_removelast (l : list A) :
  StronglySorted Rel l -> StronglySorted Rel (removelast l).
Proof.
  induction 1 as [|a l Hs IH Hall].
  - constructor.
  - destruct l as [|b l']; [constructor|].
    change (StronglySorted Rel (a :: removelast (b :: l'))).
    constructor; [exact IH|].
    apply Forall_forall. intros x Hx. rewrite Forall_forall in Hall.
    apply Hall. clear - Hx. revert Hx. generalize (b :: l') as m.
    induction m as [|c m IHm]; intros Hx; [contradiction|].
    destruct m as [|c' m']; [contradiction|].
    change (In x (c :: removelast (c' :: m'))) in Hx.
    destruct Hx as [<-|Hx]; [now left|right; now apply IHm].
Qed.

End Orderings.

Lemma removelast_nth_error {A} (l : list A) (k : nat) (x : A) :
  nth_error (removelast l) k = Some x ->
  nth_error l k = Some x /\ (S k < length l)%nat.
Proof.
  revert k. induction l as [|a l IH]; intros k H.
  - destruct k; discriminate.
  - destruct l as [|b l']; [destruct k; discriminate|].
    change (nth_error (a :: removelast (b :: l')) k = Some x) in H.
    destruct k as [|k]; simpl in H.
    + split; [exact H|simpl; lia].
    + destruct (IH k H) as [H1 H2]. split; [exact H1|simpl in *; lia].
Qed.

Lemma removelast_length {A} (l : list A) :
  length (removelast l) = (length l - 1)%nat.
Proof.
  induction l as [|a l IH]; [reflexivity|].
  destruct l as [|b l']; [reflexivity|].
  change (length (a :: removelast (b :: l')) = (length (a :: b :: l') - 1)%nat).
  simpl length in *. lia.
Qed.

Lemma Forall2_nth_error {A B} (P : A -> B -> Prop) (l : list A) (m : list B) :
  Forall2 P l m ->
  forall k y, nth_error m k = Some y ->
              exists x, nth_error l k = Some x /\ P x y.
Proof.
  induction 1 as [|a b l m Hab H IH]; intros k y Hk.
  - destruct k; discriminate.
  - destruct k as [|k]; simpl in Hk.
    + injection Hk as <-. exists a. now split.
    + now apply IH.
Qed.

Section Dates.



Lemma trunc_IZR (z : Z) : JS.trunc (IZR z) = z.
Proof.
  unfold JS.trunc. destruct (Rle_dec 0 (IZR z)); [apply ZfloorZ|].
  unfold Zceil. rewrite ZfloorNZ. lia.
Qed.

(** A whole number of milliseconds is kept as it is. *)
Lemma newDate_whole (x : R) : whole x -> JS.newDate x = x.
Proof. intros [z ->]. unfold JS.newDate. now rewrite trunc_IZR. Qed.





End Dates.

Section Sampler.

Variable geometry : list GeoPoint.
Variables totalDuration startTime intervalMinutes : R.

Hypothesis geometry_two : (2 <= length geometry)%nat.
Hypothesis duration_pos : 0 < totalDuration.
Hypothesis interval_pos : 0 < intervalMinutes.

Let intervalSeconds := intervalMinutes * 60.
Let numIntervals := JS.floor (totalDuration / intervalSeconds).
Let cum := cumulativeDistances geometry.
Let totalDistance := totalDistanceOf cum.
Let target (i : Z) := IZR i * intervalSeconds / totalDuration * totalDistance.
Let body := sampleAt geometry cum totalDuration totalDistance startTime
                     intervalSeconds.

(** [if (segmentIndex <= 0) segmentIndex = 1]. *)
Let bracket (i : Z) : Z :=
  let j := search (target i) cum in if (j <=? 0)%Z then 1%Z else j.

Lemma intervalSeconds_pos : 0 < intervalSeconds.
Proof. unfold intervalSeconds. lra. Qed.

Lemma numIntervals_bounds :
  (0 <= numIntervals)%Z /\
  IZR numIntervals * intervalSeconds <= totalDuration /\
  totalDuration < (IZR numIntervals + 1) * intervalSeconds.
Proof.
  pose proof intervalSeconds_pos as HI.
  unfold numIntervals, JS.floor.
  pose proof (Zfloor_bound (totalDuration / intervalSeconds)) as [Hlo Hhi].
  assert (Hq : 0 <= totalDuration / intervalSeconds).
  { apply Rmult_le_pos; [lra|]. left. now apply Rinv_0_lt_compat. }
  split; [|split].
  - apply (Zfloor_lub 0). exact Hq.
  - apply (Rmult_le_compat_r intervalSeconds) in Hlo; [|lra].
    unfold Rdiv in Hlo. rewrite Rmult_assoc, Rinv_l in Hlo by lra. lra.
  - apply (Rmult_lt_compat_r intervalSeconds) in Hhi; [|lra].
    unfold Rdiv in Hhi. rewrite Rmult_assoc, Rinv_l in Hhi by lra. lra.
Qed.

Lemma cum_length : JS.len cum = JS.len geometry.
Proof.
  unfold JS.len, cum. rewrite cumulativeDistances_length. lia.
Qed.

Lemma totalDistance_nonneg : 0 <= totalDistance.
Proof. apply cumulativeDistances_last_nonneg. Qed.

Lemma bracket_range (i : Z) : (1 <= bracket i <= JS.len geometry - 1)%Z.
Proof.
  unfold bracket. cbv zeta.
  pose proof (search_range (target i) cum) as Hr. rewrite cum_length in Hr.
  unfold JS.len in *.
  destruct (Z.leb_spec (search (target i) cum) 0); lia.
Qed.

(** The loop body never raises on a route of two points or more, and
    what it pushes is fixed by the counter. *)
Lemma sampleAt_spec (i : Z) :
  exists p, body i = Some p /\
            time p =
              JS.newDate (startTime + IZR i * intervalSeconds * 1000) /\
            geometryIndex p = bracket i /\
            isStart p = false /\ isEnd p = false.
Proof.
  pose proof (bracket_range i) as Hb.
  unfold body, sampleAt. cbv zeta.
  change (JS.findIndex
            (fun d => JS.geb d
               (IZR i * intervalSeconds / totalDuration * totalDistance))
            cum) with (search (target i) cum).
  change (if (search (target i) cum <=? 0)%Z then 1%Z
          else search (target i) cum) with (bracket i).
  destruct (get_in_range cum (bracket i - 1)) as [s Hs];
    [rewrite cum_length; lia|].
  destruct (get_in_range cum (bracket i)) as [e He];
    [rewrite cum_length; lia|].
  destruct (get_in_range geometry (bracket i - 1)) as [g0 Hg0]; [lia|].
  destruct (get_in_range geometry (bracket i)) as [g1 Hg1]; [lia|].
  rewrite Hs, He, Hg0, Hg1. simpl.
  eexists. split; [reflexivity|]. simpl. repeat split; reflexivity.
Qed.

Let startPoint : SamplePoint :=
  {| lat := fst (nth 0 geometry (0, 0)); lon := snd (nth 0 geometry (0, 0));
     time := JS.newDate startTime; geometryIndex := 0; isStart := true;
     isEnd := false |}.

Let endPoint (start : bool) : SamplePoint :=
  {| lat := fst (last geometry (0, 0)); lon := snd (last geometry (0, 0));
     time := JS.newDate (startTime + totalDuration * 1000);
     geometryIndex := JS.len geometry - 1; isStart := start;
     isEnd := true |}.

Lemma geometry_nonempty : geometry <> [].
Proof. intros E. rewrite E in geometry_two. simpl in geometry_two. lia. Qed.

Lemma loopCounters_nth (n : Z) (k : nat) (i : Z) :
  nth_error (loopCounters n) k = Some i -> i = Z.of_nat (S k).
Proof.
  unfold loopCounters. intros H.
  rewrite nth_error_map in H.
  destruct (nth_error (seq 1 (Z.to_nat n)) k) as [j|] eqn:E; [|discriminate].
  injection H as <-.
  pose proof (nth_error_nth _ _ 0%nat E) as Hn.
  assert (Hk : (k < Z.to_nat n)%nat).
  { assert (Hsome : nth_error (seq 1 (Z.to_nat n)) k <> None) by congruence.
    apply nth_error_Some in Hsome. now rewrite length_seq in Hsome. }
  rewrite seq_nth in Hn by exact Hk. lia.
Qed.

(** The sampling loop runs to its end and pushes one point per counter. *)
Lemma loop_spec :
  exists sampled,
    traverse body (loopCounters numIntervals) = Some sampled /\
    length sampled = Z.to_nat numIntervals /\
    (forall k p, nth_error sampled k = Some p ->
                 body (Z.of_nat (S k)) = Some p).
Proof.
  destruct (traverse_total body (loopCounters numIntervals)) as [sampled Hs].
  { intros i _. destruct (sampleAt_spec i) as [p [Hp _]]. now exists p. }
  exists sampled. split; [exact Hs|].
  pose proof (traverse_Forall2 body _ _ Hs) as HF. split.
  - rewrite <- (Forall2_length HF). unfold loopCounters.
    now rewrite length_map, length_seq.
  - intros k p Hk.
    destruct (Forall2_nth_error _ _ _ HF k p Hk) as [i [Hi Hp]].
    apply loopCounters_nth in Hi. now subst i.
Qed.

(** The end of the function: either the end point is appended, or it
    replaces the last point and inherits its [isStart]. *)
Lemma closeRoute_spec (points : list SamplePoint) (d : SamplePoint) :
  points <> [] ->
  let lastPoint := last points d in
  let distToEnd :=
    haversineDistance (lat lastPoint) (lon lastPoint)
      (fst (last geometry (0, 0))) (snd (last geometry (0, 0))) in
  (distToEnd > 2 /\
   closeRoute geometry totalDuration startTime points =
     Some (points ++ [endPoint false])) \/
  (distToEnd <= 2 /\
   closeRoute geometry totalDuration startTime points =
     Some (removelast points ++ [endPoint (isStart lastPoint)])).
Proof.
  intros Hne lastPoint distToEnd. unfold closeRoute.
  rewrite (get_last geometry (0, 0) geometry_nonempty).
  rewrite (get_last points d Hne). simpl.
  fold lastPoint. fold distToEnd.
  destruct (Rgt_dec distToEnd 2) as [Hfar|Hnear].
  - left. split; [exact Hfar|reflexivity].
  - right. split; [lra|reflexivity].
Qed.

Lemma sampleRoutePoints_unfold :
  exists sampled,
    length sampled = Z.to_nat numIntervals /\
    (forall k p, nth_error sampled k = Some p ->
                 body (Z.of_nat (S k)) = Some p) /\
    sampleRoutePoints geometry totalDuration startTime intervalMinutes =
      closeRoute geometry totalDuration startTime (startPoint :: sampled).
Proof.
  destruct loop_spec as [sampled [Hs [Hlen Hnth]]].
  exists sampled. split; [exact Hlen|]. split; [exact Hnth|].
  unfold sampleRoutePoints. cbv zeta.
  rewrite (get_head geometry (0, 0) geometry_nonempty). simpl bind.
  fold intervalSeconds. fold numIntervals. fold cum.
  fold totalDistance. fold body. rewrite Hs. reflexivity.
Qed.

(** What is known of the point at position [k] before the end is set:
    position 0 is the start, position [k > 0] is the sample of counter
    [k]. *)
Let sampledAs (k : nat) (p : SamplePoint) : Prop :=
  time p =
    JS.newDate (startTime + IZR (Z.of_nat k) * intervalSeconds * 1000) /\
  geometryIndex p = (if (k =? 0)%nat then 0%Z else bracket (Z.of_nat k)) /\
  isStart p = (k =? 0)%nat /\
  isEnd p = false /\
  (Z.of_nat k <= numIntervals)%Z.

Lemma points_nth (sampled : list SamplePoint) :
  length sampled = Z.to_nat numIntervals ->
  (forall k p, nth_error sampled k = Some p ->
               body (Z.of_nat (S k)) = Some p) ->
  forall k p, nth_error (startPoint :: sampled) k = Some p -> sampledAs k p.
Proof.
  intros Hlen Hnth k p Hk. pose proof numIntervals_bounds as [Hn _].
  destruct k as [|k]; simpl in Hk.
  - injection Hk as <-. unfold sampledAs. simpl.
    repeat split; try reflexivity; [f_equal; lra|lia].
  - assert (Hlt : (k < length sampled)%nat).
    { apply nth_error_Some. congruence. }
    apply Hnth in Hk.
    destruct (sampleAt_spec (Z.of_nat (S k))) as [q [Hq [Ht [Hg [Hs He]]]]].
    rewrite Hk in Hq. injection Hq as <-.
    unfold sampledAs. change (S k =? 0)%nat with false.
    repeat split; try assumption. lia.
Qed.

(** The shape of the result: the points pushed before the end, all of
    them or all but the last, followed by the end point. *)
Lemma sampleRoutePoints_shape :
  exists front start,
    sampleRoutePoints geometry totalDuration startTime intervalMinutes =
      Some (front ++ [endPoint start]) /\
    (forall k p, nth_error front k = Some p -> sampledAs k p) /\
    (Z.of_nat (length front) = numIntervals + 1 \/
     Z.of_nat (length front) = numIntervals)%Z /\
    start = (length front =? 0)%nat /\
    (haversineDistance (fst (nth 0 geometry (0, 0)))
                       (snd (nth 0 geometry (0, 0)))
                       (fst (last geometry (0, 0)))
                       (snd (last geometry (0, 0))) > 2 ->
     front <> []).
Proof.
  destruct sampleRoutePoints_unfold as [sampled [Hlen [Hnth Heq]]].
  pose proof (points_nth sampled Hlen Hnth) as Hpts.
  pose proof numIntervals_bounds as [Hn _].
  destruct (closeRoute_spec (startPoint :: sampled) startPoint
              ltac:(discriminate)) as [[Hfar Hc]|[Hnear Hc]].
  - exists (startPoint :: sampled), false. rewrite Heq, Hc.
    split; [reflexivity|]. split; [exact Hpts|].
    split; [left; simpl length; lia|]. split; [reflexivity|discriminate].
  - exists (removelast (startPoint :: sampled)),
           (isStart (last (startPoint :: sampled) startPoint)).
    rewrite Heq, Hc. split; [reflexivity|]. split.
    { intros k p Hk. apply removelast_nth_error in Hk. now apply Hpts. }
    split.
    { right. rewrite removelast_length. simpl length. lia. }
    split.
    + destruct sampled as [|s sampled']; [reflexivity|].
      replace (length (removelast (startPoint :: s :: sampled')) =? 0)%nat
        with false by (now rewrite removelast_length).
      assert (Hl : nth_error (startPoint :: s :: sampled')
                     (length (s :: sampled')) =
                   Some (last (startPoint :: s :: sampled') startPoint)).
      { rewrite <- (get_nth_error (startPoint :: s :: sampled')).
        rewrite <- (get_last (startPoint :: s :: sampled') startPoint)
          by discriminate.
        f_equal. unfold JS.len. simpl length. lia. }
      apply Hpts in Hl. destruct Hl as [_ [_ [Hs _]]]. exact Hs.
    + intros Hfar Hnil. destruct sampled as [|s sampled'].
      * simpl in Hnear. unfold Rgt in Hfar. lra.
      * discriminate.
Qed.

Lemma target_monotone (i j : Z) :
  (i <= j)%Z -> target i <= target j.
Proof.
  intros Hij. unfold target. pose proof intervalSeconds_pos as HI.
  pose proof totalDistance_nonneg as HT. apply IZR_le in Hij.
  apply Rmult_le_compat_r; [exact HT|].
  apply Rmult_le_compat_r; [left; now apply Rinv_0_lt_compat|].
  apply Rmult_le_compat_r; lra.
Qed.

Lemma target_within (j : Z) :
  (j <= numIntervals)%Z -> target j <= totalDistance.
Proof.
  intros Hj. unfold target. pose proof intervalSeconds_pos as HI.
  pose proof totalDistance_nonneg as HT. apply IZR_le in Hj.
  pose proof numIntervals_bounds as [_ [Hn _]].
  assert (Hp : IZR j * intervalSeconds / totalDuration <= 1).
  { apply (Rmult_le_reg_r totalDuration); [exact duration_pos|].
    unfold Rdiv. rewrite Rmult_assoc, Rinv_l by lra. nra. }
  nra.
Qed.

Lemma bracket_monotone (i j : Z) :
  (i <= j <= numIntervals)%Z -> (bracket i <= bracket j)%Z.
Proof.
  intros [Hij Hj]. unfold bracket. cbv zeta.
  assert (Hne : cum <> []) by (unfold cum, cumulativeDistances; discriminate).
  pose proof (search_found (target j) cum Hne (target_within j Hj)) as Hf.
  pose proof (search_monotone _ _ cum (target_monotone i j Hij) Hf) as Hm.
  destruct (Z.leb_spec (search (target i) cum) 0);
    destruct (Z.leb_spec (search (target j) cum) 0); lia.
Qed.

Lemma sampledAs_index_range (k : nat) (p : SamplePoint) :
  sampledAs k p -> (0 <= geometryIndex p <= JS.len geometry - 1)%Z.
Proof.
  intros [_ [Hg _]]. rewrite Hg.
  pose proof (bracket_range (Z.of_nat k)). unfold JS.len in *.
  destruct (k =? 0)%nat; lia.
Qed.

Lemma sampledAs_index_monotone (i j : nat) (p q : SamplePoint) :
  sampledAs i p -> sampledAs j q -> (i <= j)%nat ->
  (geometryIndex p <= geometryIndex q)%Z.
Proof.
  intros [_ [Hp _]] [_ [Hq [_ [_ Hj]]]] Hij. rewrite Hp, Hq.
  destruct (Nat.eqb_spec i 0) as [->|Hi].
  - pose proof (bracket_range (Z.of_nat j)). destruct (j =? 0)%nat; lia.
  - destruct (Nat.eqb_spec j 0) as [->|_]; [lia|].
    apply bracket_monotone. lia.
Qed.



Lemma nth_error_snoc_last {A} (l : list A) (e : A) :
  nth_error (l ++ [e]) (length (l ++ [e]) - 1) = Some e.
Proof.
  rewrite length_app. simpl length.
  replace (length l + 1 - 1)%nat with (length l) by lia.
  rewrite nth_error_app2 by lia. now rewrite Nat.sub_diag.
Qed.

(** C10 (sampleRoutePoints, geometry indices): on a route of at least two
    points, with a positive duration and a positive interval, the sampler
    returns a sequence in which every [geometryIndex] lies in
    [0 .. geometry.length - 1] and the last one is [geometry.length - 1];
    when the interval is a whole number of seconds the indices never
    decrease along the sequence.  With an interval such as 0.07 minutes the
    binary64 quotient [totalDuration / intervalSeconds] can round up to a
    whole number that the exact quotient does not reach: the loop then runs
    once more, the target of that sample lies beyond the total distance,
    [findIndex] finds nothing and the index falls back to 1. *)
Theorem sampleRoutePoints_geometryIndex :
  exists pts,
    sampleRoutePoints geometry totalDuration startTime intervalMinutes =
      Some pts /\
    Forall (fun p => (0 <= geometryIndex p <= JS.len geometry - 1)%Z) pts /\
    (exists q, nth_error pts (length pts - 1) = Some q /\
               geometryIndex q = (JS.len geometry - 1)%Z) /\
    (whole (intervalMinutes * 60) ->
     StronglySorted (fun p q => (geometryIndex p <= geometryIndex q)%Z) pts).
Proof.
  destruct sampleRoutePoints_shape as [front [start [Heq [Hfront _]]]].
  assert (Hlen : (2 <= JS.len geometry)%Z) by (unfold JS.len; lia).
  eexists. split; [exact Heq|]. split; [|split].
  - apply Forall_app. split.
    + apply Forall_forall. intros p Hp.
      destruct (In_nth_error _ _ Hp) as [k Hk].
      exact (sampledAs_index_range k p (Hfront k p Hk)).
    + constructor; [simpl; lia|constructor].
  - eexists. split; [apply nth_error_snoc_last|reflexivity].
  - intros _. apply StronglySorted_snoc.
    + apply StronglySorted_of_nth_error. intros i j x y Hij Hx Hy.
      apply (sampledAs_index_monotone i j);
        [now apply Hfront|now apply Hfront|lia].
    + apply Forall_forall. intros p Hp.
      destruct (In_nth_error _ _ Hp) as [k Hk].
      pose proof (sampledAs_index_range k p (Hfront k p Hk)). simpl. lia.
Qed.


End Sampler.

(** ** The haversine formula on the equator *)

Section Equator.

(** Along the equator the formula gives the arc length: the Earth radius
    times the difference of longitudes in radians. *)
Lemma haversineDistance_equator (lon1 lon2 : R) :
  0 <= lon2 - lon1 < 180 ->
  haversineDistance 0 lon1 0 lon2 = 6371 * ((lon2 - lon1) * PI / 180).
Proof.
  intros [Hlo Hhi]. unfold haversineDistance. cbv zeta.
  pose proof PI_RGT_0 as Hpi.
  set (x := (lon2 - lon1) * PI / 180 / 2).
  assert (Hx : 0 <= x < PI / 2).
  { unfold x. split.
    - apply Rmult_le_pos; [|lra]. apply Rmult_le_pos; [|lra].
      apply Rmult_le_pos; lra.
    - assert ((lon2 - lon1) * PI < 180 * PI) by nra. lra. }
  replace ((0 - 0) * PI / 180 / 2) with 0 by lra.
  replace (0 * PI / 180) with 0 by lra.
  rewrite sin_0, cos_0.
  replace (0 * 0 + 1 * 1 * sin x * sin x) with (sin x * sin x) by ring.
  assert (Hs : 0 <= sin x) by (apply sin_ge_0; lra).
  assert (Hc : 0 < cos x) by (apply cos_gt_0; lra).
  rewrite (sqrt_square _ Hs).
  replace (1 - sin x * sin x) with (cos x * cos x).
  2:{ pose proof (sin2_cos2 x) as H. unfold Rsqr in H. lra. }
  rewrite (sqrt_square (cos x)) by lra.
  unfold JS.atan2. destruct (Rlt_dec 0 (cos x)) as [_|Hn]; [|lra].
  change (sin x / cos x) with (tan x).
  rewrite atan_tan by lra. unfold x. lra.
Qed.

Lemma haversineDistance_same_equator (lon0 : R) :
  haversineDistance 0 lon0 0 lon0 = 0.
Proof. rewrite haversineDistance_equator; lra. Qed.

End Equator.

(** ** The sampler on a route of 1.1 km along the equator *)

Section ShortRoute.


Lemma sampleRoutePoints_geometryIndex_witness :
  exists pts,
    sampleRoutePoints [(0, 0); (0, 1 / 100)] 100 0 1 = Some pts /\
    Forall (fun p => (0 <= geometryIndex p <= 1)%Z) pts /\
    StronglySorted (fun p q => (geometryIndex p <= geometryIndex q)%Z) pts.
Proof.
  destruct (sampleRoutePoints_geometryIndex [(0, 0); (0, 1 / 100)] 100 0 1
              ltac:(simpl; lia) ltac:(lra) ltac:(lra))
    as [pts [Heq [Hrange [_ Hsorted]]]].
  exists pts. split; [exact Heq|]. split; [exact Hrange|].
  apply Hsorted. exists 60%Z. lra.
Defined.


(** The arrival is cut to whole milliseconds: a sixteenth of a second
    after the epoch the end point, which here overwrites the start, is
    dated 62 and not 62.5. *)
Lemma sampleRoutePoints_arrival_truncated :
  sampleRoutePoints [(0, 0); (0, 1 / 100)] (1 / 16) 0 1 =
    Some [ {| lat := 0; lon := 1 / 100; time := 62; geometryIndex := 1;
              isStart := true; isEnd := true |} ].
Proof.
  pose proof PI_RGT_0 as Hpi. pose proof PI_4 as Hpi4.
  unfold sampleRoutePoints. cbv zeta.
  replace (JS.floor (1 / 16 / (1 * 60))) with 0%Z
    by (symmetry; apply Zfloor_eq; lra).
  change (loopCounters 0) with (@nil Z).
  change (JS.get [(0, 0); (0, 1 / 100)] 0) with (Some (0, 0)).
  cbn [bind traverse fst snd]. unfold closeRoute.
  change (JS.get [(0, 0); (0, 1 / 100)] (JS.len [(0, 0); (0, 1 / 100)] - 1))
    with (Some (0, 1 / 100)).
  match goal with
  | |- context [JS.get [?a] (JS.len [?a] - 1)] =>
      change (JS.get [a] (JS.len [a] - 1)) with (Some a)
  end.
  cbn [bind fst snd lat lon isStart removelast app].
  rewrite (haversineDistance_equator 0 (1 / 100)) by lra.
  destruct (Rgt_dec (6371 * ((1 / 100 - 0) * PI / 180)) 2) as [Hc|_];
    [exfalso; nra|].
  assert (Ht : JS.newDate (0 + 1 / 16 * 1000) = 62).
  { unfold JS.newDate, JS.trunc.
    destruct (Rle_dec 0 (0 + 1 / 16 * 1000)) as [_|Hno]; [|lra].
    apply f_equal. apply Zfloor_eq. lra. }
  rewrite Ht. reflexivity.
Qed.

End ShortRoute.

(** ** The sampling loop in binary64 *)

Module InBinary64.

Import Floats.

(** 12.6 seconds in intervals of 0.07 minutes: the interval is 4.2 seconds
    and the quotient rounds to 3, although three intervals take longer
    than the duration.  On the table of the route
    [[0,0],[0,0.5],[1,0.5],[1,3]] the third sample aims beyond the total
    distance, [findIndex] finds nothing, and the indices of the three
    samples are 2, 3 and 1. *)
Lemma sampling_rounds_up :
  Binary64.numIntervals 12.6 0.07 = 3%Z /\
  PrimFloat.ltb 12.6 (3 * Binary64.intervalSeconds 0.07) = true /\
  map (Binary64.segmentIndexAt
         [0; 55.59746332227937; 166.7923899668381; 444.73736104644865]%float
         12.6 0.07)
      [1; 2; 3]%Z = [2; 3; 1]%Z.
Proof. vm_compute. repeat split; reflexivity. Qed.

(** Once the term [a] of the haversine formula has rounded above 1, as it
    does between (8, -179) and (-8, 1), the square root of [1 - a] is not
    a number. *)
Lemma haversine_past_one :
  PrimFloat.is_nan (PrimFloat.sqrt (1 - 1.0000000000000002)) = true.
Proof. reflexivity. Qed.

End InBinary64.

(** ** The significance filter *)

Section Sorting.

Context {A : Type}.
Variable le : A -> A -> bool.

Lemma insertBy_perm (x : A) (l : list A) :
  Permutation (JS.insertBy le x l) (x :: l).
Proof.
  induction l as [|y r IH]; simpl.
  - apply Permutation_refl.
  - destruct (le y x).
    + apply perm_trans with (y :: x :: r).
      * now apply perm_skip.
      * apply perm_swap.
    + apply Permutation_refl.
Qed.

Lemma sortBy_fold_perm (l : list A) :
  forall acc,
    Permutation (fold_left (fun acc x => JS.insertBy le x acc) l acc)
                (acc ++ l).
Proof.
  induction l as [|x r IH]; intros acc; simpl.
  - rewrite app_nil_r. apply Permutation_refl.
  - eapply perm_trans; [apply IH|].
    eapply perm_trans.
    + apply Permutation_app_tail. apply insertBy_perm.
    + simpl. apply Permutation_middle.
Qed.

Lemma sortBy_perm (l : list A) : Permutation (JS.sortBy le l) l.
Proof. unfold JS.sortBy. apply (sortBy_fold_perm l []). Qed.

Lemma sortBy_length (l : list A) : length (JS.sortBy le l) = length l.
Proof. apply Permutation_length, sortBy_perm. Qed.

Lemma sortBy_In (l : list A) (x : A) : In x (JS.sortBy le l) <-> In x l.
Proof.
  split; apply Permutation_in; [|apply Permutation_sym]; apply sortBy_perm.
Qed.

Lemma slice_prefix (l : list A) (n : nat) :
  JS.slice l 0 (Z.of_nat n) = firstn n l.
Proof.
  unfold JS.slice, JS.relIndex, JS.len.
  change (0 <? 0)%Z with false.
  destruct (Z.ltb_spec (Z.of_nat n) 0) as [Hneg|_]; [lia|].
  replace (Z.to_nat (Z.min 0 (Z.of_nat (length l)))) with 0%nat by lia.
  rewrite Nat.sub_0_r. simpl skipn.
  destruct (Nat.le_gt_cases n (length l)) as [Hle|Hgt].
  - f_equal. lia.
  - replace (Z.to_nat (Z.min (Z.of_nat n) (Z.of_nat (length l))))
      with (length l) by lia.
    rewrite firstn_all. symmetry. apply firstn_all2. lia.
Qed.

Lemma In_firstn (n : nat) (l : list A) (x : A) :
  In x (firstn n l) -> In x l.
Proof.
  intros H. rewrite <- (firstn_skipn n l). apply in_or_app. now left.
Qed.

End Sorting.

Section Filter.

Lemma classify_flagged (point : WeatherPoint) (prev : option WeatherPoint) :
  flagged point = true -> fst (classify point prev) = true.
Proof.
  unfold flagged, classify. intros ->. cbv zeta.
  destruct prev as [prev|]; [|reflexivity].
  destruct (weather point) as [w|]; [|reflexivity].
  destruct (weather prev) as [pw|]; [|reflexivity].
  destruct (negb (Bool.eqb _ _)); destruct (Rgt_dec _ _);
    destruct (negb (String.eqb _ _)); reflexivity.
Qed.

Lemma classifyLoop_In (weatherPoints : list WeatherPoint) :
  forall prev p,
    In p (classifyLoop prev weatherPoints) ->
    exists q reason, In q weatherPoints /\ p = withReason q reason.
Proof.
  induction weatherPoints as [|point rest IH]; intros prev p Hp; simpl in Hp.
  - contradiction.
  - destruct (classify point prev) as [sig reason].
    apply in_app_or in Hp. destruct Hp as [Hp|Hp].
    + destruct sig; [|contradiction]. destruct Hp as [<-|[]].
      exists point, reason. split; [now left|reflexivity].
    + destruct (IH _ _ Hp) as [q [r [Hq Hr]]].
      exists q, r. split; [now right|exact Hr].
Qed.

Lemma classifyLoop_keeps (weatherPoints : list WeatherPoint) :
  forall prev q,
    In q weatherPoints -> flagged q = true ->
    exists reason, In (withReason q reason) (classifyLoop prev weatherPoints).
Proof.
  induction weatherPoints as [|point rest IH]; intros prev q Hq Hf.
  - contradiction.
  - simpl. destruct (classify point prev) as [sig reason] eqn:E.
    destruct Hq as [->|Hq].
    + pose proof (classify_flagged q prev Hf) as Hs. rewrite E in Hs.
      simpl in Hs. subst sig. exists reason. now left.
    + destruct (IH (Some point) q Hq Hf) as [r Hr].
      exists r. apply in_or_app. now right.
Qed.

Lemma classifyLoop_length (weatherPoints : list WeatherPoint) :
  forall prev,
    (length (classifyLoop prev weatherPoints) <= length weatherPoints)%nat.
Proof.
  induction weatherPoints as [|point rest IH]; intros prev; simpl.
  - lia.
  - destruct (classify point prev) as [sig reason].
    rewrite length_app. specialize (IH (Some point)).
    destruct sig; simpl; lia.
Qed.

Lemma injectLoop_In (fuel : nat) :
  forall i interval weatherPoints significant p,
    In p (injectLoop fuel i interval weatherPoints significant) ->
    In p significant \/
    exists q, In q weatherPoints /\ p = withReason q "interval".
Proof.
  induction fuel as [|fuel IH]; intros i interval wps sig p Hp; simpl in Hp.
  - now left.
  - destruct (i <? length wps - 1)%nat; [|now left].
    destruct (nth_error wps i) as [wp|] eqn:Ewp; [|now left].
    apply IH in Hp. destruct Hp as [Hp|Hp]; [|now right].
    destruct (JS.find _ sig); [now left|].
    apply in_app_or in Hp. destruct Hp as [Hp|[<-|[]]]; [now left|].
    right. exists wp. split; [|reflexivity].
    eapply nth_error_In. exact Ewp.
Qed.

Lemma injectLoop_keeps (fuel : nat) :
  forall i interval weatherPoints significant p,
    In p significant ->
    In p (injectLoop fuel i interval weatherPoints significant).
Proof.
  induction fuel as [|fuel IH]; intros i interval wps sig p Hp; simpl.
  - exact Hp.
  - destruct (i <? length wps - 1)%nat; [|exact Hp].
    destruct (nth_error wps i) as [wp|]; [|exact Hp].
    apply IH. destruct (JS.find _ sig); [exact Hp|].
    apply in_or_app. now left.
Qed.

End Filter.

Section FilterResults.

Variable weatherPoints : list WeatherPoint.

(** The fuel given to the injection loop is enough: with one more unit the
    loop returns the same array. *)
Lemma injectLoop_fuel (fuel : nat) :
  forall i interval significant,
    (1 <= interval)%nat -> (length weatherPoints <= fuel + i)%nat ->
    injectLoop (S fuel) i interval weatherPoints significant =
    injectLoop fuel i interval weatherPoints significant.
Proof.
  induction fuel as [|fuel IH]; intros i interval sig Hint Hlen.
  - simpl. destruct (Nat.ltb_spec i (length weatherPoints - 1)); [lia|].
    reflexivity.
  - change (injectLoop (S (S fuel)) i interval weatherPoints sig)
      with (if (i <? length weatherPoints - 1)%nat then
              match nth_error weatherPoints i with
              | Some wp =>
                  injectLoop (S fuel) (i + interval) interval weatherPoints
                    (match JS.find (fun p => sameTime p wp) sig with
                     | Some _ => sig
                     | None => sig ++ [withReason wp "interval"]
                     end)
              | None => sig
              end
            else sig).
    simpl. destruct (i <? length weatherPoints - 1)%nat; [|reflexivity].
    destruct (nth_error weatherPoints i) as [wp|]; [|reflexivity].
    apply IH; lia.
Qed.

Lemma injectLoop_enough_fuel (extra : nat) :
  forall significant,
    (4 < length weatherPoints)%nat ->
    injectLoop (length weatherPoints + extra) (length weatherPoints / 4)
               (length weatherPoints / 4) weatherPoints significant =
    injectLoop (length weatherPoints) (length weatherPoints / 4)
               (length weatherPoints / 4) weatherPoints significant.
Proof.
  intros sig Hlen.
  assert (Hint : (1 <= length weatherPoints / 4)%nat)
    by (apply Nat.div_le_lower_bound; lia).
  induction extra as [|extra IH].
  - now rewrite Nat.add_0_r.
  - rewrite Nat.add_succ_r, injectLoop_fuel by lia. exact IH.
Qed.

Lemma significantPoints_In (p : WeatherPoint) :
  In p (significantPoints weatherPoints) ->
  exists q reason, In q weatherPoints /\ p = withReason q reason.
Proof.
  unfold significantPoints. cbv zeta.
  destruct (_ && _)%bool.
  - intros Hp. apply sortBy_In in Hp. apply injectLoop_In in Hp.
    destruct Hp as [Hp|[q [Hq ->]]].
    + now apply classifyLoop_In in Hp.
    + now exists q, "interval"%string.
  - apply classifyLoop_In.
Qed.

Lemma significantPoints_keeps (q : WeatherPoint) :
  In q weatherPoints -> flagged q = true ->
  exists reason, In (withReason q reason) (significantPoints weatherPoints).
Proof.
  intros Hq Hf.
  destruct (classifyLoop_keeps weatherPoints None q Hq Hf) as [r Hr].
  exists r. unfold significantPoints. cbv zeta.
  destruct (_ && _)%bool; [|exact Hr].
  apply sortBy_In. now apply injectLoop_keeps.
Qed.

(** C9 (filterSignificantWeatherPoints, frame): every element of the result
    is an element of the input in all its fields (position, time, index,
    flags, weather observation), the field [significantReason] apart. *)
Theorem filter_only_selects_and_annotates (maxPoints : nat) :
  Forall (fun p => exists q, In q weatherPoints /\
                             sample p = sample q /\ weather p = weather q)
         (filterSignificantWeatherPoints weatherPoints maxPoints).
Proof.
  apply Forall_forall. intros p Hp. unfold filterSignificantWeatherPoints in Hp.
  destruct (length weatherPoints <=? 3)%nat.
  - exists p. now repeat split.
  - cbv zeta in Hp.
    assert (Hsig : In p (significantPoints weatherPoints)).
    { destruct (maxPoints <? _)%nat; [|exact Hp].
      apply sortBy_In in Hp. rewrite slice_prefix in Hp.
      apply In_firstn in Hp. now apply sortBy_In in Hp. }
    destruct (significantPoints_In p Hsig) as [q [r [Hq ->]]].
    exists q. now repeat split.
Qed.

(** C2 (filterSignificantWeatherPoints, bound), as the code has it: an input
    of more than three points gives at most [maxPoints] points; and when, in
    addition, no more than [maxPoints] significant points remain after the
    classification and injection passes, every input point that carries
    [isStart] or [isEnd], the first and the last ones among them, is in the
    result with a [significantReason]. *)
Theorem filter_bounded (maxPoints : nat) :
  (3 < length weatherPoints)%nat ->
  (length (filterSignificantWeatherPoints weatherPoints maxPoints)
   <= maxPoints)%nat /\
  ((length (significantPoints weatherPoints) <= maxPoints)%nat ->
   forall first final,
     nth_error weatherPoints 0 = Some first ->
     nth_error weatherPoints (length weatherPoints - 1) = Some final ->
     flagged first = true -> flagged final = true ->
     (exists reason,
        In (withReason first reason)
           (filterSignificantWeatherPoints weatherPoints maxPoints)) /\
     (exists reason,
        In (withReason final reason)
           (filterSignificantWeatherPoints weatherPoints maxPoints))).
Proof.
  intros Hlen. unfold filterSignificantWeatherPoints.
  destruct (Nat.leb_spec (length weatherPoints) 3) as [Hle|_]; [lia|].
  cbv zeta. split.
  - destruct (Nat.ltb_spec maxPoints
                (length (significantPoints weatherPoints))) as [Hlt|Hge].
    + rewrite sortBy_length, slice_prefix, length_firstn. lia.
    + exact Hge.
  - intros Hfew first final Hfirst Hfinal Hf1 Hf2.
    destruct (Nat.ltb_spec maxPoints
                (length (significantPoints weatherPoints))) as [Hlt|_];
      [lia|].
    split; apply significantPoints_keeps;
      solve [eapply nth_error_In; eassumption | assumption].
Qed.

End FilterResults.

(** ** The filter on a trip of four points *)

Section FilterExamples.

Import Example.

Lemma filter_bounded_witness :
  (length (filterSignificantWeatherPoints trip 2) <= 2)%nat.
Proof.
  apply (proj1 (filter_bounded trip 2 ltac:(simpl; lia))).
Defined.

(** C2, as the specification states it, fails on an input of three points
    and [maxPoints = 2]: the input comes back unchanged, three points.  And
    of four points that carry neither flag nor observation none is
    significant, so the first and the last are not in the result. *)
Lemma filter_returns_short_input_unchanged :
  filterSignificantWeatherPoints [at0; at15; at45] 2 = [at0; at15; at45] /\
  (2 < length (filterSignificantWeatherPoints [at0; at15; at45] 2))%nat /\
  filterSignificantWeatherPoints [plain 0; plain 1; plain 2; plain 3] 8 = [].
Proof. split; [reflexivity|]. split; [simpl; lia|reflexivity]. Qed.

Lemma classify_at0 : classify at0 None = (true, "start"%string).
Proof. reflexivity. Qed.

Lemma classify_at15 :
  classify at15 (Some at0) = (true, "weather_change"%string).
Proof.
  unfold classify, hasPrecipitation, JS.gtb. simpl.
  destruct (Rgt_dec 1 0) as [_|H]; [|exfalso; lra].
  destruct (Rgt_dec 0 0) as [H|_]; [exfalso; lra|]. simpl.
  destruct (Rgt_dec (Rabs (20 - 20)) 3); reflexivity.
Qed.

Lemma classify_at30 :
  classify at30 (Some at15) = (true, "weather_change"%string).
Proof.
  unfold classify, hasPrecipitation, JS.gtb. simpl.
  destruct (Rgt_dec 1 0) as [_|H]; [|exfalso; lra].
  destruct (Rgt_dec 0 0) as [H|_]; [exfalso; lra|]. simpl.
  destruct (Rgt_dec (Rabs (20 - 20)) 3); reflexivity.
Qed.

Lemma classify_at45 : classify at45 (Some at30) = (true, "end"%string).
Proof. reflexivity. Qed.

Lemma significantPoints_trip :
  significantPoints trip =
    [ withReason at0 "start"; withReason at15 "weather_change";
      withReason at30 "weather_change"; withReason at45 "end" ].
Proof.
  unfold significantPoints, trip. cbv zeta. unfold classifyLoop.
  rewrite classify_at0, classify_at15, classify_at30, classify_at45.
  reflexivity.
Qed.

(** C3 (filterSignificantWeatherPoints, ranking), on the code: with
    [maxPoints = 2] the trip keeps the rain point and the end, and drops
    the start, although the specification ranks [start] first (0) and
    [weather_change] fifth (4).  The comparator reads the rank as
    [priority[reason] || 6], and the rank 0 of [start] is falsy. *)
Theorem filter_ranks_start_last :
  filterSignificantWeatherPoints trip 2 =
    [ withReason at15 "weather_change"; withReason at45 "end" ] /\
  specPriority (withReason at0 "start") = 0%Z /\
  effectivePriority (withReason at0 "start") = 6%Z /\
  specPriority (withReason at15 "weather_change") = 4%Z.
Proof.
  split; [|repeat split; reflexivity].
  unfold filterSignificantWeatherPoints.
  change (length trip <=? 3)%nat with false. cbv zeta.
  rewrite significantPoints_trip.
  change (2 <? length _)%nat with true.
  change (JS.sortBy byPriority _)
    with [ withReason at45 "end"; withReason at15 "weather_change";
           withReason at30 "weather_change"; withReason at0 "start" ].
  change (JS.slice _ 0 (Z.of_nat 2))
    with [ withReason at45 "end"; withReason at15 "weather_change" ].
  unfold JS.sortBy. simpl fold_left. unfold byTime, JS.leb. simpl.
  destruct (Rle_dec (2700000 - 900000) 0) as [H|_]; [exfalso; lra|].
  reflexivity.
Qed.

End FilterExamples.

(** ** The cumulative distance table and the colours *)

Section TableAndColours.

(** C7 (cumulative distance table): for a regional route of at least one
    point the table has the length of the route, starts with 0, each later
    entry is the previous one plus the great-circle distance (haversine
    formula, Earth radius 6371 km, in kilometres) between the two points,
    and the entries never decrease.  (Between two points that are nearly
    antipodal the binary64 evaluation of the formula can put a negative
    number under the square root: the distance is then NaN, and so is the
    rest of the table.) *)
Theorem cumulativeDistances_table (geometry : list GeoPoint) :
  (1 <= length geometry)%nat -> regional geometry ->
  length (cumulativeDistances geometry) = length geometry /\
  nth_error (cumulativeDistances geometry) 0 = Some 0 /\
  (forall i a b,
     nth_error geometry i = Some a -> nth_error geometry (S i) = Some b ->
     exists d,
       nth_error (cumulativeDistances geometry) i = Some d /\
       nth_error (cumulativeDistances geometry) (S i) =
         Some (d + specGreatCircle (fst a) (snd a) (fst b) (snd b))) /\
  (forall i j x y, (i <= j)%nat ->
     nth_error (cumulativeDistances geometry) i = Some x ->
     nth_error (cumulativeDistances geometry) j = Some y -> x <= y).
Proof.
  intros Hlen _. split; [|split; [reflexivity|split]].
  - rewrite cumulativeDistances_length. lia.
  - destruct geometry as [|p rest]; [simpl in Hlen; lia|].
    intros i a b Ha Hb. rewrite <- haversineDistance_spec.
    exact (cumulativeFrom_step rest 0 p i a b Ha Hb).
  - intros i j x y Hij Hx Hy.
    destruct (Nat.eq_dec i j) as [->|Hne].
    + rewrite Hx in Hy. injection Hy as <-. lra.
    + apply (StronglySorted_nth_error Rle _
               (cumulativeDistances_sorted geometry) i j); [lia|easy|easy].
Qed.

Lemma cumulativeDistances_table_witness :
  length (cumulativeDistances Example.route) = 3%nat /\
  nth_error (cumulativeDistances Example.route) 0 = Some 0 /\
  nth_error (cumulativeDistances Example.route) 1 =
    Some (0 + specGreatCircle 0 0 0 (1 / 100)).
Proof.
  assert (Hregional : regional Example.route).
  { exists 0, 0. unfold Example.route.
    repeat constructor; cbn [fst snd]; lra. }
  destruct (cumulativeDistances_table Example.route ltac:(simpl; lia)
              Hregional) as [Hlen [Hzero [Hstep _]]].
  split; [exact Hlen|]. split; [exact Hzero|].
  destruct (Hstep 0%nat (0, 0) (0, 1 / 100) eq_refl eq_refl)
    as [d [Hd Hnext]].
  rewrite Hzero in Hd. injection Hd as <-. exact Hnext.
Defined.

Lemma includes_In (codes : list Z) (code : Z) :
  JS.includes codes code = true <-> In code codes.
Proof.
  unfold JS.includes. rewrite existsb_exists. split.
  - intros [x [Hx Heq]]. apply Z.eqb_eq in Heq. now subst x.
  - intros Hin. exists code. split; [exact Hin|apply Z.eqb_refl].
Qed.

(** C5 (getColorForWeather): the colour is a function of the observation
    alone; no observation gives grey; a code of the dangerous set gives red
    whatever the precipitation, so code 95 with no precipitation is red;
    any other code gives green for a precipitation of at most 0, yellow
    below 0.5 mm, orange below 2.0 mm and red from 2.0 mm on. *)
Theorem getColorForWeather_spec :
  getColorForWeather None = "#94a3b8"%string /\
  (forall w, In (weatherCode w) [56; 57; 66; 67; 71; 73; 75; 77; 85; 86;
                                 95; 96; 99]%Z ->
             getColorForWeather (Some w) = "#ef4444"%string) /\
  (forall t, getColorForWeather
               (Some {| temperature := t; precipitation := 0;
                        weatherCode := 95 |}) = "#ef4444"%string) /\
  (forall w, ~ In (weatherCode w) [56; 57; 66; 67; 71; 73; 75; 77; 85; 86;
                                   95; 96; 99]%Z ->
     (precipitation w <= 0 ->
      getColorForWeather (Some w) = "#22c55e"%string) /\
     (0 < precipitation w < 0.5 ->
      getColorForWeather (Some w) = "#fbbf24"%string) /\
     (0.5 <= precipitation w < 2.0 ->
      getColorForWeather (Some w) = "#f97316"%string) /\
     (2.0 <= precipitation w ->
      getColorForWeather (Some w) = "#ef4444"%string)).
Proof.
  split; [reflexivity|]. split; [|split].
  - intros w Hin. unfold getColorForWeather.
    apply (includes_In dangerousCodes) in Hin. now rewrite Hin.
  - intros t. reflexivity.
  - intros w Hnot. unfold getColorForWeather.
    destruct (JS.includes dangerousCodes (weatherCode w)) eqn:E.
    { apply includes_In in E. contradiction. }
    cbv zeta.
    repeat split; intros Hp;
      destruct (Rle_dec (precipitation w) 0);
      destruct (Rlt_dec (precipitation w) 0.5);
      destruct (Rlt_dec (precipitation w) 2.0);
      solve [reflexivity | exfalso; lra].
Qed.

End TableAndColours.

(** ** The segment builder: index resolution and fallback *)

Section IndexResolution.

Variable geometry : list GeoPoint.

Lemma search_first (target : R) (cum : list R) (k : nat) :
  search target cum = Z.of_nat k ->
  (exists d, nth_error cum k = Some d /\ target <= d) /\
  (forall j d, (j < k)%nat -> nth_error cum j = Some d -> d < target).
Proof.
  intros Hk. unfold search, JS.findIndex in Hk.
  destruct (findIndexFrom_first (fun d => JS.geb d target) cum 0 k
              ltac:(lia) ltac:(lia)) as [[d [Hd Hf]] Hbefore].
  split.
  - exists d. split; [exact Hd|]. now apply geb_true.
  - intros j x Hj Hx. specialize (Hbefore j x Hj Hx). simpl in Hbefore.
    apply not_true_iff_false in Hbefore.
    destruct (Rlt_dec x target) as [Hlt|Hnlt]; [exact Hlt|].
    exfalso. apply Hbefore. apply geb_true. lra.
Qed.

(** C6 (createRouteSegments, index resolution), as the code has it: on a
    route of at least one point, each target is looked up with the search
    for the first index whose cumulative distance is at least the target;
    the start index is the index found, or 0 when there is none; the end
    index is the index found when it is 1 or more, and the last index of
    the route when the search finds index 0 or nothing; both lie in
    [0 .. geometry.length - 1], and a start index beyond the end index is
    collapsed to the end index. *)
Theorem resolveIndices_spec (startDistance endDistance : R) :
  (1 <= length geometry)%nat ->
  let cum := cumulativeDistances geometry in
  let startIdx := fst (resolveIndices geometry cum startDistance endDistance) in
  let endIdx := snd (resolveIndices geometry cum startDistance endDistance) in
  (forall target k,
     search target cum = Z.of_nat k ->
     (exists d, nth_error cum k = Some d /\ target <= d) /\
     (forall j d, (j < k)%nat -> nth_error cum j = Some d -> d < target)) /\
  endIdx = (if (search endDistance cum <=? 0)%Z
            then JS.len geometry - 1
            else search endDistance cum)%Z /\
  startIdx = Z.min (Z.max 0 (search startDistance cum)) endIdx /\
  (0 <= startIdx <= endIdx)%Z /\ (endIdx <= JS.len geometry - 1)%Z.
Proof.
  intros Hlen cum startIdx endIdx.
  split; [intros target k; apply search_first|].
  assert (Hcum : JS.len cum = JS.len geometry).
  { unfold JS.len, cum. rewrite cumulativeDistances_length. lia. }
  pose proof (search_range startDistance cum) as Hs.
  pose proof (search_range endDistance cum) as He.
  rewrite Hcum in Hs, He.
  subst startIdx endIdx. unfold resolveIndices. cbv zeta.
  fold (search startDistance cum). fold (search endDistance cum).
  cbn [fst snd]. unfold JS.len in *.
  destruct (Z.leb_spec (search startDistance cum) 0);
    destruct (Z.leb_spec (search endDistance cum) 0);
    repeat match goal with
           | |- context [(?a >=? ?b)%Z] => destruct (Z.geb_spec a b)
           | |- context [(?a >? ?b)%Z] => destruct (Z.gtb_spec a b)
           end;
    repeat split; lia.
Qed.

Lemma search_nonpositive (target : R) (rest : list R) :
  target <= 0 -> search target (0 :: rest) = 0%Z.
Proof.
  intros Ht. unfold search, JS.findIndex. simpl.
  destruct (JS.geb 0 target) eqn:E; [reflexivity|].
  apply not_true_iff_false in E. exfalso. apply E. now apply geb_true.
Qed.

End IndexResolution.

Section ResolutionExamples.

Import Example.

Lemma resolveIndices_spec_witness :
  (0 <= fst (resolveIndices route (cumulativeDistances route) 0 1))%Z.
Proof.
  destruct (resolveIndices_spec route 0 1 ltac:(simpl; lia))
    as [_ [_ [_ [[H _] _]]]].
  exact H.
Defined.

(** C6, as the specification states it, fails when the end target is met
    at index 0: for two weather points at the start time, both targets
    are 0, the search finds index 0 for both, and the code resolves the end
    to the last index 2 where clamping to [0 .. 2] leaves it at 0. *)
Lemma resolveIndices_end_at_zero_goes_to_last :
  let cum := cumulativeDistances route in
  let target :=
    targetDistanceOf 100 (totalDistanceOf cum) 0 atStart in
  search target cum = 0%Z /\
  resolveIndices route cum target target = (0%Z, 2%Z) /\
  specResolveIndices route cum target target = (0%Z, 0%Z).
Proof.
  intros cum target.
  assert (Ht : search target cum = 0%Z).
  { apply search_nonpositive. unfold target, targetDistanceOf. simpl. lra. }
  split; [exact Ht|].
  unfold resolveIndices, specResolveIndices. cbv zeta.
  fold (search target cum). rewrite Ht. split; reflexivity.
Qed.

End ResolutionExamples.

(** ** Slices of the route *)

Section Slices.

Context {A : Type}.







End Slices.

Section SubPaths.

Variable geometry : list GeoPoint.






End SubPaths.

(** ** Joining the runs of the segments *)

Section Joining.

Variable geometry : list GeoPoint.





Lemma splitInHalf_short (l : list GeoPoint)
    (w1 w2 : option WeatherObservation) :
  (length l < 2)%nat -> splitInHalf l w1 w2 = [].
Proof.
  intros Hl. unfold splitInHalf, JS.len.
  destruct (Z.ltb_spec (Z.of_nat (length l)) 2); [reflexivity|lia].
Qed.


End Joining.

(** ** The fallback of the segment builder *)

Section Fallback.

Variable geometry : list GeoPoint.
Variables totalDuration startTime : R.

Lemma segmentLoop_degenerate (weatherPoints : list WeatherPoint) :
  (forall k a b,
     nth_error weatherPoints k = Some a ->
     nth_error weatherPoints (S k) = Some b ->
     degeneratePair geometry totalDuration startTime a b) ->
  segmentLoop geometry (cumulativeDistances geometry) totalDuration
              (totalDistanceOf (cumulativeDistances geometry)) startTime
              weatherPoints = [].
Proof.
  induction weatherPoints as [|a rest IH]; intros Hall; [reflexivity|].
  destruct rest as [|b rest']; [reflexivity|].
  change (segmentsOfPair geometry (cumulativeDistances geometry)
            totalDuration (totalDistanceOf (cumulativeDistances geometry))
            startTime a b ++
          segmentLoop geometry (cumulativeDistances geometry) totalDuration
            (totalDistanceOf (cumulativeDistances geometry)) startTime
            (b :: rest') = []).
  rewrite IH.
  - rewrite app_nil_r. pose proof (Hall 0%nat a b eq_refl eq_refl) as Hd.
    unfold degeneratePair in Hd. unfold segmentsOfPair. cbv zeta in *.
    destruct (resolveIndices _ _ _ _) as [s e].
    now apply splitInHalf_short.
  - intros k x y Hx Hy. apply (Hall (S k)); assumption.
Qed.

(** C8 (createRouteSegments, fallback): the function is total; without
    weather points, with fewer than two of them, and when the loop over
    the pairs produces no segment, which it does when every pair is
    degenerate, it returns exactly one segment, whose positions are the
    whole route and whose colour is the neutral [#58a6ff]. *)
Theorem createRouteSegments_fallback :
  positions (fullRoute geometry) = geometry /\
  color (fullRoute geometry) = "#58a6ff"%string /\
  createRouteSegments geometry None totalDuration startTime =
    [fullRoute geometry] /\
  (forall weatherPoints,
     (length weatherPoints < 2)%nat ->
     createRouteSegments geometry (Some weatherPoints) totalDuration
                         startTime = [fullRoute geometry]) /\
  (forall weatherPoints,
     segmentLoop geometry (cumulativeDistances geometry) totalDuration
                 (totalDistanceOf (cumulativeDistances geometry)) startTime
                 weatherPoints = [] ->
     createRouteSegments geometry (Some weatherPoints) totalDuration
                         startTime = [fullRoute geometry]) /\
  (forall weatherPoints,
     (forall k a b,
        nth_error weatherPoints k = Some a ->
        nth_error weatherPoints (S k) = Some b ->
        degeneratePair geometry totalDuration startTime a b) ->
     createRouteSegments geometry (Some weatherPoints) totalDuration
                         startTime = [fullRoute geometry]).
Proof.
  split; [reflexivity|]. split; [reflexivity|]. split; [reflexivity|].
  assert (Hloop : forall weatherPoints,
    segmentLoop geometry (cumulativeDistances geometry) totalDuration
                (totalDistanceOf (cumulativeDistances geometry)) startTime
                weatherPoints = [] ->
    createRouteSegments geometry (Some weatherPoints) totalDuration
                        startTime = [fullRoute geometry]).
  { intros wps Hnil. unfold createRouteSegments. cbv zeta. rewrite Hnil.
    destruct (JS.len wps <? 2)%Z; reflexivity. }
  split; [|split].
  - intros wps Hlen. unfold createRouteSegments, JS.len.
    destruct (Z.ltb_spec (Z.of_nat (length wps)) 2); [reflexivity|lia].
  - exact Hloop.
  - intros wps Hdeg. apply Hloop. now apply segmentLoop_degenerate.
Qed.

End Fallback.

(** ** The loop over the pairs of weather points *)

Section SegmentLoop.

Variable geometry : list GeoPoint.
Variables totalDuration startTime : R.

Let cum := cumulativeDistances geometry.
Let totalDistance := totalDistanceOf cum.
Let target := targetDistanceOf totalDuration totalDistance startTime.
Let found (w : WeatherPoint) : Z := search (target w) cum.
Let idx (w : WeatherPoint) : nat := Z.to_nat (found w).









(** *** Contiguity of the segments

    From here on the duration and the length of the route are positive. *)

Hypothesis duration_pos : 0 < totalDuration.
Hypothesis route_pos : 0 < totalDistanceOf (cumulativeDistances geometry).









End SegmentLoop.

(** ** The segment builder on the example route *)

Section SegmentExamples.

Import Example.


Lemma trip_ascending : StronglySorted timeLe trip.
Proof.
  unfold trip.
  repeat (constructor; [|repeat constructor; unfold timeLe; simpl; lra]).
  constructor.
Qed.





End SegmentExamples.

(** ** A round trip shorter than one interval *)

Section RoundTrip.

(** When no interval fits in the duration and the route ends within 2 km of
    its start, the start point itself is overwritten by the end point: the
    result is a single point that carries both flags and the arrival
    time. *)
Lemma sampleRoutePoints_start_overwritten :
  sampleRoutePoints [(0, 0); (0, 1 / 100); (0, 0)] 100 0 30 =
    Some [ {| lat := 0; lon := 0; time := 0 + 100 * 1000;
              geometryIndex := 2; isStart := true; isEnd := true |} ].
Proof.
  unfold sampleRoutePoints. cbv zeta.
  replace (JS.floor (100 / (30 * 60))) with 0%Z
    by (symmetry; apply Zfloor_eq; lra).
  change (loopCounters 0) with (@nil Z).
  change (JS.get [(0, 0); (0, 1 / 100); (0, 0)] 0) with (Some (0, 0)).
  cbn [bind traverse fst snd]. unfold closeRoute.
  change (JS.get [(0, 0); (0, 1 / 100); (0, 0)]
            (JS.len [(0, 0); (0, 1 / 100); (0, 0)] - 1))
    with (Some (0, 0)).
  match goal with
  | |- context [JS.get [?a] (JS.len [?a] - 1)] =>
      change (JS.get [a] (JS.len [a] - 1)) with (Some a)
  end.
  cbn [bind fst snd lat lon isStart removelast app].
  rewrite haversineDistance_same_equator.
  destruct (Rgt_dec 0 2) as [H|_]; [exfalso; lra|].
  rewrite (newDate_whole (0 + 100 * 1000)) by (exists 100000%Z; lra).
  reflexivity.
Qed.

End RoundTrip.

(** * Further properties of the module and of its callers *)

(** ** The haversine distance *)

Section GreatCircle.

Lemma atan2_le_half_pi (y x : R) : 0 <= y -> 0 <= x -> JS.atan2 y x <= PI / 2.
Proof.
  intros Hy Hx. unfold JS.atan2. pose proof PI_RGT_0 as Hpi.
  destruct (Rlt_dec 0 x) as [Hpos|Hnpos].
  - left. apply atan_bound.
  - destruct (Rlt_dec x 0) as [Hneg|_]; [lra|].
    destruct (Rlt_dec 0 y) as [_|_]; [lra|].
    destruct (Rlt_dec y 0); lra.
Qed.

Lemma haversineDistance_same (lat0 lon0 : R) :
  haversineDistance lat0 lon0 lat0 lon0 = 0.
Proof.
  unfold haversineDistance. cbv zeta.
  replace ((lat0 - lat0) * PI / 180 / 2) with 0 by lra.
  replace ((lon0 - lon0) * PI / 180 / 2) with 0 by lra.
  rewrite sin_0.
  replace (0 * 0 + cos (lat0 * PI / 180) * cos (lat0 * PI / 180) * 0 * 0)
    with 0 by ring.
  rewrite sqrt_0. replace (1 - 0) with 1 by ring. rewrite sqrt_1.
  unfold JS.atan2. destruct (Rlt_dec 0 1) as [_|H]; [|lra].
  replace (0 / 1) with 0 by lra. rewrite atan_0. ring.
Qed.

Lemma haversineDistance_swap (lat1 lon1 lat2 lon2 : R) :
  haversineDistance lat1 lon1 lat2 lon2 =
  haversineDistance lat2 lon2 lat1 lon1.
Proof.
  unfold haversineDistance. cbv zeta.
  replace ((lat1 - lat2) * PI / 180 / 2)
    with (- ((lat2 - lat1) * PI / 180 / 2)) by lra.
  replace ((lon1 - lon2) * PI / 180 / 2)
    with (- ((lon2 - lon1) * PI / 180 / 2)) by lra.
  rewrite !sin_neg.
  set (s := sin ((lat2 - lat1) * PI / 180 / 2)).
  set (t := sin ((lon2 - lon1) * PI / 180 / 2)).
  set (c1 := cos (lat1 * PI / 180)). set (c2 := cos (lat2 * PI / 180)).
  replace (- s * - s + c2 * c1 * - t * - t) with (s * s + c1 * c2 * t * t)
    by ring.
  reflexivity.
Qed.

(** The term [a] of the formula between two points with valid latitudes
    that are at most 90 degrees apart in latitude and in longitude. *)
Lemma haversine_term_bounds (lat1 lon1 lat2 lon2 : R) :
  -90 <= lat1 <= 90 -> -90 <= lat2 <= 90 ->
  Rabs (lat2 - lat1) <= 90 -> Rabs (lon2 - lon1) <= 90 ->
  0 <= sin ((lat2 - lat1) * PI / 180 / 2) *
       sin ((lat2 - lat1) * PI / 180 / 2) +
       cos (lat1 * PI / 180) * cos (lat2 * PI / 180) *
       sin ((lon2 - lon1) * PI / 180 / 2) *
       sin ((lon2 - lon1) * PI / 180 / 2) <= 3 / 4.
Proof.
  intros H1 H2 Hlat Hlon. pose proof PI_RGT_0 as Hpi.
  assert (Hdlat : -90 <= lat2 - lat1 <= 90)
    by (unfold Rabs in Hlat; destruct (Rcase_abs (lat2 - lat1)); lra).
  assert (Hdlon : -90 <= lon2 - lon1 <= 90)
    by (unfold Rabs in Hlon; destruct (Rcase_abs (lon2 - lon1)); lra).
  set (x := (lat2 - lat1) * PI / 180 / 2).
  set (y := (lon2 - lon1) * PI / 180 / 2).
  set (p1 := lat1 * PI / 180). set (p2 := lat2 * PI / 180).
  assert (Hx : - (PI / 2) <= 2 * x <= PI / 2) by (unfold x; nra).
  assert (Hy : - (PI / 2) <= 2 * y <= PI / 2) by (unfold y; nra).
  assert (Hp1 : - (PI / 2) <= p1 <= PI / 2) by (unfold p1; nra).
  assert (Hp2 : - (PI / 2) <= p2 <= PI / 2) by (unfold p2; nra).
  pose proof (cos_ge_0 (2 * x) (proj1 Hx) (proj2 Hx)) as Hcx.
  pose proof (cos_ge_0 (2 * y) (proj1 Hy) (proj2 Hy)) as Hcy.
  pose proof (cos_ge_0 p1 (proj1 Hp1) (proj2 Hp1)) as Hc1.
  pose proof (cos_ge_0 p2 (proj1 Hp2) (proj2 Hp2)) as Hc2.
  rewrite cos_2a_sin in Hcx, Hcy.
  pose proof (cos_minus p2 p1) as Hminus.
  pose proof (cos_plus p2 p1) as Hplus.
  pose proof (COS_bound (p2 + p1)) as [_ Hone].
  replace (p2 - p1) with (2 * x) in Hminus by (unfold p1, p2, x; lra).
  rewrite cos_2a_sin in Hminus.
  set (s := sin x) in *. set (t := sin y) in *.
  set (c1 := cos p1) in *. set (c2 := cos p2) in *.
  assert (Hs : 0 <= s * s) by nra.
  assert (Ht : 0 <= t * t) by nra.
  assert (Hc : 0 <= c1 * c2) by nra.
  assert (Hcc : c1 * c2 <= 1 - s * s) by nra.
  replace (c1 * c2 * t * t) with (c1 * c2 * (t * t)) by ring.
  split; [nra|].
  assert (Hprod : c1 * c2 * (t * t) <= (1 - s * s) * (1 / 2)).
  { apply Rmult_le_compat; lra. }
  lra.
Qed.

Lemma atan_sqrt3 : atan (sqrt 3) = PI / 3.
Proof.
  rewrite <- tan_PI3. apply atan_tan. pose proof PI_RGT_0. lra.
Qed.

(** X1 (haversineDistance, bounds): between two points with valid
    latitudes that are at most 90 degrees apart in latitude and in
    longitude, the distance is at least 0 and at most a third of the
    circumference of the sphere of radius 6371 km, that is
    [6371 * 2 * PI / 3] km.  (Without the restriction the binary64
    evaluation can give NaN, between points that are nearly antipodal.) *)
Theorem haversineDistance_bounds (lat1 lon1 lat2 lon2 : R) :
  -90 <= lat1 <= 90 -> -90 <= lat2 <= 90 ->
  Rabs (lat2 - lat1) <= 90 -> Rabs (lon2 - lon1) <= 90 ->
  0 <= haversineDistance lat1 lon1 lat2 lon2 <= 6371 * (2 * PI / 3).
Proof.
  intros H1 H2 Hlat Hlon. split; [apply haversineDistance_nonneg|].
  pose proof (haversine_term_bounds lat1 lon1 lat2 lon2 H1 H2 Hlat Hlon)
    as Ha.
  unfold haversineDistance. cbv zeta.
  set (a := sin ((lat2 - lat1) * PI / 180 / 2) *
            sin ((lat2 - lat1) * PI / 180 / 2) +
            cos (lat1 * PI / 180) * cos (lat2 * PI / 180) *
            sin ((lon2 - lon1) * PI / 180 / 2) *
            sin ((lon2 - lon1) * PI / 180 / 2)) in *.
  assert (Hx : 0 < sqrt (1 - a)) by (apply sqrt_lt_R0; lra).
  assert (Hq : sqrt a / sqrt (1 - a) <= sqrt 3).
  { apply (Rmult_le_reg_r (sqrt (1 - a))); [exact Hx|].
    unfold Rdiv. rewrite Rmult_assoc, Rinv_l, Rmult_1_r by lra.
    rewrite <- sqrt_mult by lra. apply sqrt_le_1_alt. lra. }
  assert (Hatan : atan (sqrt a / sqrt (1 - a)) <= PI / 3).
  { rewrite <- atan_sqrt3. destruct Hq as [Hlt|Heq].
    - left. now apply atan_increasing.
    - rewrite Heq. lra. }
  unfold JS.atan2. destruct (Rlt_dec 0 (sqrt (1 - a))) as [_|Hno]; [|lra].
  lra.
Qed.

(** Madrid and Barcelona, roughly. *)
Lemma haversineDistance_bounds_witness :
  0 <= haversineDistance 40 (-4) 41 2 <= 6371 * (2 * PI / 3).
Proof.
  apply haversineDistance_bounds; [lra|lra| |];
    rewrite Rabs_pos_eq; lra.
Defined.

(** X2 (haversineDistance, symmetry and identity): the distance from a
    point to another is the distance back, and the distance from a point
    to itself is 0. *)
Theorem haversineDistance_symmetric_zero :
  (forall lat1 lon1 lat2 lon2,
     haversineDistance lat1 lon1 lat2 lon2 =
     haversineDistance lat2 lon2 lat1 lon1) /\
  (forall lat0 lon0, haversineDistance lat0 lon0 lat0 lon0 = 0).
Proof.
  split.
  - intros lat1 lon1 lat2 lon2. apply haversineDistance_swap.
  - intros lat0 lon0. apply haversineDistance_same.
Qed.

(** X3 (haversineDistance, on the equator): between two points of the
    equator whose longitudes differ by less than 180 degrees, in either
    direction, the formula gives the length of the arc: 6371 km times the
    difference of the longitudes in radians. *)
Theorem haversineDistance_equator_arc (lon1 lon2 : R) :
  Rabs (lon2 - lon1) < 180 ->
  haversineDistance 0 lon1 0 lon2 = 6371 * (Rabs (lon2 - lon1) * PI / 180).
Proof.
  intros Habs. destruct (Rle_dec lon1 lon2) as [Hle|Hgt].
  - rewrite Rabs_right in * by lra.
    apply haversineDistance_equator. lra.
  - rewrite Rabs_left in * by lra.
    rewrite haversineDistance_swap, haversineDistance_equator by lra.
    f_equal. lra.
Qed.

Lemma haversineDistance_equator_arc_witness :
  haversineDistance 0 (-3) 0 2 = 6371 * (Rabs (2 - -3) * PI / 180).
Proof.
  apply haversineDistance_equator_arc.
  rewrite Rabs_right; lra.
Defined.

End GreatCircle.

(** ** The legend and the weather codes *)

Section LegendAndCodes.

(** X4 (getPrecipitationColor and getColorForWeather): for an observation
    whose code is not dangerous and whose precipitation is not negative,
    the colour of the route is the colour of the legend; for a negative
    precipitation the two differ, the route is green and the legend
    yellow. *)
Theorem legend_agrees_with_route :
  (forall w,
     JS.includes dangerousCodes (weatherCode w) = false ->
     0 <= precipitation w ->
     getColorForWeather (Some w) = getPrecipitationColor (precipitation w)) /\
  (forall w,
     JS.includes dangerousCodes (weatherCode w) = false ->
     precipitation w < 0 ->
     getColorForWeather (Some w) = "#22c55e"%string /\
     getPrecipitationColor (precipitation w) = "#fbbf24"%string).
Proof.
  split; intros w Hsafe Hp; unfold getColorForWeather, getPrecipitationColor;
    rewrite Hsafe; cbv zeta;
    destruct (Rle_dec (precipitation w) 0);
    destruct (Req_dec_T (precipitation w) 0);
    destruct (Rlt_dec (precipitation w) 0.5);
    destruct (Rlt_dec (precipitation w) 2.0);
    try (exfalso; lra); try split; reflexivity.
Qed.

(** X5 (dangerous codes across the module): every code that colours a
    segment red whatever the precipitation counts as rain for the filter,
    falls in the category rain, snow or storm, and has a description of its
    own in [getWeatherDescription]. *)
Theorem dangerous_codes_are_rainy_and_described (code : Z) :
  JS.includes dangerousCodes code = true ->
  isRainyCode code = true /\
  (weatherCategory code = "rain"%string \/
   weatherCategory code = "snow"%string \/
   weatherCategory code = "storm"%string) /\
  getWeatherDescription code <> "Desconocido"%string.
Proof.
  intros Hd. apply includes_In in Hd. unfold dangerousCodes in Hd.
  repeat (destruct Hd as [<-|Hd];
          [split; [reflexivity|split; [tauto|discriminate]]|]).
  contradiction.
Qed.

Lemma dangerous_codes_are_rainy_and_described_witness :
  isRainyCode 95 = true /\
  (weatherCategory 95 = "rain"%string \/
   weatherCategory 95 = "snow"%string \/
   weatherCategory 95 = "storm"%string) /\
  getWeatherDescription 95 <> "Desconocido"%string.
Proof.
  apply dangerous_codes_are_rainy_and_described. reflexivity.
Defined.

End LegendAndCodes.

(** ** formatDuration *)

Section Durations.

Lemma trunc_nonneg (x : R) : 0 <= x -> Builtins.trunc x = Zfloor x.
Proof.
  intros Hx. unfold Builtins.trunc, JS.trunc.
  destruct (Rle_dec 0 x); [reflexivity|lra].
Qed.

(** X6 (formatDuration): for a duration that is not negative and below
    [2^53] seconds the text shows the whole minutes of the duration split
    at 60: hours [h] and minutes [m] with [0 <= m <= 59] and
    [60 * h + m = floor (seconds / 60)], in decimal digits; the hours are
    shown only when there is at least one. *)
Theorem formatDuration_parts (seconds : R) :
  0 <= seconds < 9007199254740992 ->
  exists h m : Z,
    (0 <= h)%Z /\ (0 <= m <= 59)%Z /\
    (60 * h + m)%Z = Zfloor (seconds / 60) /\
    formatDuration seconds =
      Some (if (h >? 0)%Z
            then (Builtins.decimal h ++ "h " ++ Builtins.decimal m ++ "min")
            else (Builtins.decimal m ++ "min"))%string.
Proof.
  intros [Hs Hbig]. unfold formatDuration. cbv zeta.
  set (h := JS.floor (seconds / 3600)).
  set (m := JS.floor (Builtins.rem seconds 3600 / 60)).
  exists h, m.
  assert (Hq : 0 <= seconds / 3600) by lra.
  pose proof (Zfloor_bound (seconds / 3600)) as [Hh1 Hh2].
  change (Zfloor (seconds / 3600)) with h in Hh1, Hh2.
  assert (Hh0 : (0 <= h)%Z) by (apply (Zfloor_lub 0); exact Hq).
  assert (Hrem : Builtins.rem seconds 3600 = seconds - 3600 * IZR h).
  { unfold Builtins.rem. rewrite trunc_nonneg by exact Hq. reflexivity. }
  pose proof (Zfloor_bound (Builtins.rem seconds 3600 / 60)) as [Hm1 Hm2].
  change (Zfloor (Builtins.rem seconds 3600 / 60)) with m in Hm1, Hm2.
  rewrite Hrem in Hm1, Hm2.
  assert (Hm0 : (0 <= m)%Z).
  { apply (Zfloor_lub 0). rewrite Hrem. lra. }
  assert (Hm59 : (m < 60)%Z).
  { apply lt_IZR. lra. }
  assert (Hhbig : (h < 9007199254740992)%Z).
  { apply lt_IZR. lra. }
  assert (Hshow : forall z, (0 <= z < 9007199254740992)%Z ->
                            Builtins.showInt z = Some (Builtins.decimal z)).
  { intros z Hz. unfold Builtins.showInt.
    change (10 ^ 21)%Z with 1000000000000000000000%Z.
    destruct (Z.ltb_spec (Z.abs z) 1000000000000000000000) as [_|Hno];
      [reflexivity|lia]. }
  split; [exact Hh0|]. split; [lia|]. split.
  - symmetry. apply Zfloor_eq. rewrite plus_IZR, mult_IZR. lra.
  - rewrite (Hshow m) by lia.
    destruct (h >? 0)%Z; [rewrite (Hshow h) by lia|]; reflexivity.
Qed.

Lemma formatDuration_parts_witness :
  exists h m : Z,
    (60 * h + m)%Z = Zfloor (5400 / 60) /\
    formatDuration 5400 =
      Some (if (h >? 0)%Z
            then (Builtins.decimal h ++ "h " ++ Builtins.decimal m ++ "min")
            else (Builtins.decimal m ++ "min"))%string.
Proof.
  destruct (formatDuration_parts 5400 ltac:(lra)) as [h [m [_ [_ [H1 H2]]]]].
  exists h, m. split; [exact H1|exact H2].
Defined.

End Durations.

(** ** Moving a stop *)

Section MovingStops.

Context {A : Type}.

Lemma getAt_middle (pre post : list (option A)) (v : option A) :
  Builtins.getAt (pre ++ v :: post) (Z.of_nat (length pre)) = v.
Proof.
  unfold Builtins.getAt. rewrite get_nth_error, nth_error_app2 by lia.
  now rewrite Nat.sub_diag.
Qed.

Lemma setAt_middle (pre post : list (option A)) (v w : option A) :
  Builtins.setAt (pre ++ v :: post) (Z.of_nat (length pre)) w =
  pre ++ w :: post.
Proof.
  unfold Builtins.setAt.
  destruct (Z.ltb_spec (Z.of_nat (length pre)) 0) as [Hneg|_]; [lia|].
  cbv zeta. rewrite Nat2Z.id, length_app. simpl length.
  destruct (Nat.ltb_spec (length pre) (length pre + S (length post)))
    as [_|Hge]; [|lia].
  rewrite firstn_app, Nat.sub_diag, firstn_all, firstn_O, app_nil_r.
  f_equal. f_equal.
  rewrite skipn_app, skipn_all2 by lia.
  replace (S (length pre) - length pre)%nat with 1%nat by lia.
  reflexivity.
Qed.

Lemma neighbours_split (l : list (option A)) (i : nat) :
  (S i < length l)%nat ->
  exists pre x y post, l = pre ++ x :: y :: post /\ length pre = i.
Proof.
  intros Hi. exists (firstn i l).
  destruct (skipn i l) as [|x rest] eqn:E.
  { assert (H : length (skipn i l) = 0%nat) by now rewrite E.
    rewrite length_skipn in H. lia. }
  destruct rest as [|y post].
  { assert (H : length (skipn i l) = 1%nat) by now rewrite E.
    rewrite length_skipn in H. lia. }
  exists x, y, post. split.
  - rewrite <- E. symmetry. apply firstn_skipn.
  - rewrite length_firstn. lia.
Qed.

Lemma moveStop_up_neighbours (pre post : list (option A)) (x y : option A) :
  moveStop (pre ++ x :: y :: post) (Z.of_nat (S (length pre))) "up" =
  pre ++ y :: x :: post.
Proof.
  unfold moveStop. cbv zeta. change (String.eqb "up" "up") with true.
  replace (Z.of_nat (S (length pre)) - 1)%Z with (Z.of_nat (length pre))
    by lia.
  unfold JS.len. rewrite length_app. simpl length.
  destruct (Z.ltb_spec (Z.of_nat (length pre)) 0) as [Hneg|_]; [lia|].
  destruct (Z.geb_spec (Z.of_nat (length pre))
              (Z.of_nat (length pre + S (S (length post))))) as [Hge|_];
    [lia|].
  cbn [orb]. rewrite getAt_middle.
  replace (pre ++ x :: y :: post) with ((pre ++ [x]) ++ y :: post)
    by (now rewrite <- app_assoc).
  replace (S (length pre)) with (length (pre ++ [x]))
    by (rewrite length_app; simpl; lia).
  rewrite getAt_middle, setAt_middle, <- app_assoc.
  change ([x] ++ x :: post) with (x :: x :: post).
  now rewrite setAt_middle.
Qed.

Lemma moveStop_down_neighbours (pre post : list (option A)) (x y : option A) :
  moveStop (pre ++ x :: y :: post) (Z.of_nat (length pre)) "down" =
  pre ++ y :: x :: post.
Proof.
  unfold moveStop. cbv zeta. change (String.eqb "down" "up") with false.
  unfold JS.len. rewrite length_app. simpl length.
  destruct (Z.ltb_spec (Z.of_nat (length pre) + 1) 0) as [Hneg|_]; [lia|].
  destruct (Z.geb_spec (Z.of_nat (length pre) + 1)
              (Z.of_nat (length pre + S (S (length post))))) as [Hge|_];
    [lia|].
  cbn [orb]. rewrite getAt_middle, setAt_middle.
  replace (Z.of_nat (length pre) + 1)%Z with (Z.of_nat (length (pre ++ [x])))
    by (rewrite length_app; simpl; lia).
  replace (pre ++ x :: y :: post) with ((pre ++ [x]) ++ y :: post)
    by (now rewrite <- app_assoc).
  rewrite getAt_middle.
  replace (pre ++ y :: y :: post) with ((pre ++ [y]) ++ y :: post)
    by (now rewrite <- app_assoc).
  replace (length (pre ++ [x])) with (length (pre ++ [y]))
    by (rewrite !length_app; reflexivity).
  now rewrite setAt_middle, <- app_assoc.
Qed.

(** X7 (handleMoveStop, exchange): for two neighbouring stops, moving the
    lower one up and moving the upper one down give the same array; it is a
    permutation of the stops in which the two have exchanged their places
    and every other stop has kept its own. *)
Theorem moveStop_exchanges_neighbours (l : list (option A)) (i : nat) :
  (S i < length l)%nat ->
  moveStop l (Z.of_nat (S i)) "up" = moveStop l (Z.of_nat i) "down" /\
  Permutation l (moveStop l (Z.of_nat (S i)) "up") /\
  nth_error (moveStop l (Z.of_nat (S i)) "up") i = nth_error l (S i) /\
  nth_error (moveStop l (Z.of_nat (S i)) "up") (S i) = nth_error l i /\
  (forall j, j <> i -> j <> S i ->
     nth_error (moveStop l (Z.of_nat (S i)) "up") j = nth_error l j).
Proof.
  intros Hi.
  destruct (neighbours_split l i Hi) as [pre [x [y [post [-> Hpre]]]]].
  subst i. rewrite moveStop_up_neighbours, moveStop_down_neighbours.
  split; [reflexivity|]. split.
  { apply Permutation_app_head. apply perm_swap. }
  split.
  { rewrite !nth_error_app2 by lia.
    rewrite Nat.sub_diag.
    now replace (S (length pre) - length pre)%nat with 1%nat by lia. }
  split.
  { rewrite !nth_error_app2 by lia.
    rewrite Nat.sub_diag.
    now replace (S (length pre) - length pre)%nat with 1%nat by lia. }
  intros j Hj1 Hj2.
  destruct (Nat.lt_ge_cases j (length pre)) as [Hlt|Hge].
  - now rewrite !nth_error_app1 by exact Hlt.
  - rewrite !nth_error_app2 by exact Hge.
    destruct (j - length pre)%nat as [|[|k]] eqn:E; [lia|lia|reflexivity].
Qed.

(** X8 (handleMoveStop, round trip): moving a stop up and then moving the
    same stop down again, or down and then up again, gives back the stops
    as they were. *)
Theorem moveStop_round_trip (l : list (option A)) (i : nat) :
  (S i < length l)%nat ->
  moveStop (moveStop l (Z.of_nat (S i)) "up") (Z.of_nat i) "down" = l /\
  moveStop (moveStop l (Z.of_nat i) "down") (Z.of_nat (S i)) "up" = l.
Proof.
  intros Hi.
  destruct (neighbours_split l i Hi) as [pre [x [y [post [-> Hpre]]]]].
  subst i. split.
  - rewrite moveStop_up_neighbours. apply moveStop_down_neighbours.
  - rewrite moveStop_down_neighbours. apply moveStop_up_neighbours.
Qed.

End MovingStops.

Lemma moveStop_exchanges_neighbours_witness :
  moveStop [Some 1%nat; Some 2%nat; Some 3%nat] (Z.of_nat 2) "up" =
  moveStop [Some 1%nat; Some 2%nat; Some 3%nat] (Z.of_nat 1) "down".
Proof.
  apply (moveStop_exchanges_neighbours
           [Some 1%nat; Some 2%nat; Some 3%nat] 1).
  simpl. lia.
Defined.

Lemma moveStop_round_trip_witness :
  moveStop (moveStop [Some 1%nat; Some 2%nat; Some 3%nat] (Z.of_nat 2) "up")
           (Z.of_nat 1) "down" =
  [Some 1%nat; Some 2%nat; Some 3%nat].
Proof.
  apply (moveStop_round_trip [Some 1%nat; Some 2%nat; Some 3%nat] 1).
  simpl. lia.
Defined.

(** ** More on the significance filter *)

Section FilterOrderAndReasons.

Lemma classify_reason (point : WeatherPoint) (prev : option WeatherPoint)
    (reason : string) :
  classify point prev = (true, reason) ->
  In reason ["start"; "end"; "rain_start"; "rain_end"; "temp_change";
             "weather_change"]%string.
Proof.
  unfold classify. cbv zeta.
  destruct (isStart (sample point) || isEnd (sample point));
    destruct prev as [prev|];
    try destruct (weather point) as [w|];
    try destruct (weather prev) as [pw|];
    try destruct (negb (Bool.eqb _ _));
    try destruct (Rgt_dec _ _);
    try destruct (negb (String.eqb _ _));
    try destruct (isStart (sample point));
    try destruct (hasPrecipitation point || isRainyCode (weatherCode w));
    intros H; inversion H; subst; simpl; tauto.
Qed.

Lemma classifyLoop_reason (weatherPoints : list WeatherPoint) :
  forall prev p,
    In p (classifyLoop prev weatherPoints) ->
    exists reason,
      significantReason p = Some reason /\
      In reason ["start"; "end"; "rain_start"; "rain_end"; "temp_change";
                 "weather_change"]%string.
Proof.
  induction weatherPoints as [|point rest IH]; intros prev p Hp; simpl in Hp.
  - contradiction.
  - destruct (classify point prev) as [sig reason] eqn:E.
    apply in_app_or in Hp. destruct Hp as [Hp|Hp].
    + destruct sig; [|contradiction]. destruct Hp as [<-|[]].
      exists reason. split; [reflexivity|]. eapply classify_reason. exact E.
    + now apply (IH (Some point)).
Qed.

(** X9 (filterSignificantWeatherPoints, reasons): every point returned for
    an input of more than three points carries a [significantReason], and
    it is one of [start], [end], [rain_start], [rain_end], [temp_change],
    [weather_change] and [interval]. *)
Theorem filter_annotates_every_point
    (weatherPoints : list WeatherPoint) (maxPoints : nat) :
  (3 < length weatherPoints)%nat ->
  Forall (fun p =>
            exists reason,
              significantReason p = Some reason /\
              In reason ["start"; "end"; "rain_start"; "rain_end";
                         "temp_change"; "weather_change"; "interval"]%string)
         (filterSignificantWeatherPoints weatherPoints maxPoints).
Proof.
  intros Hlen. apply Forall_forall. intros p Hp.
  unfold filterSignificantWeatherPoints in Hp.
  destruct (Nat.leb_spec (length weatherPoints) 3) as [Hle|_]; [lia|].
  cbv zeta in Hp.
  assert (Hsig : In p (significantPoints weatherPoints)).
  { destruct (maxPoints <? _)%nat; [|exact Hp].
    apply sortBy_In in Hp. rewrite slice_prefix in Hp.
    apply In_firstn in Hp. now apply sortBy_In in Hp. }
  clear Hp. unfold significantPoints in Hsig. cbv zeta in Hsig.
  assert (Hclass : forall q, In q (classifyLoop None weatherPoints) ->
            exists reason,
              significantReason q = Some reason /\
              In reason ["start"; "end"; "rain_start"; "rain_end";
                         "temp_change"; "weather_change"; "interval"]%string).
  { intros q Hq. destruct (classifyLoop_reason _ _ _ Hq) as [r [Hr Hin]].
    exists r. split; [exact Hr|]. simpl in *. tauto. }
  destruct (_ && _)%bool; [|now apply Hclass].
  apply sortBy_In in Hsig. apply injectLoop_In in Hsig.
  destruct Hsig as [Hsig|[q [_ ->]]]; [now apply Hclass|].
  exists "interval"%string. split; [reflexivity|]. simpl. tauto.
Qed.

Lemma filter_annotates_every_point_witness :
  Forall (fun p =>
            exists reason,
              significantReason p = Some reason /\
              In reason ["start"; "end"; "rain_start"; "rain_end";
                         "temp_change"; "weather_change"; "interval"]%string)
         (filterSignificantWeatherPoints Example.trip 8).
Proof.
  apply filter_annotates_every_point. simpl. lia.
Defined.

Lemma byTime_true (a b : WeatherPoint) : byTime a b = true <-> timeLe a b.
Proof.
  unfold byTime, JS.leb, timeLe.
  destruct (Rle_dec (time (sample a) - time (sample b)) 0); split; intros H;
    try reflexivity; try discriminate; lra.
Qed.

Lemma insertBy_byTime_sorted (x : WeatherPoint) (l : list WeatherPoint) :
  StronglySorted timeLe l -> StronglySorted timeLe (JS.insertBy byTime x l).
Proof.
  induction 1 as [|y r Hs IH Hall]; simpl.
  - constructor; constructor.
  - destruct (byTime y x) eqn:E.
    + apply byTime_true in E. constructor; [exact IH|].
      apply Forall_forall. intros z Hz.
      apply (Permutation_in _ (insertBy_perm byTime x r)) in Hz.
      destruct Hz as [<-|Hz]; [exact E|].
      rewrite Forall_forall in Hall. now apply Hall.
    + assert (Hxy : timeLe x y).
      { unfold timeLe. destruct (Rle_dec (time (sample x)) (time (sample y)))
          as [H|H]; [exact H|].
        assert (Hyx : byTime y x = true) by (apply byTime_true; unfold timeLe; lra).
        congruence. }
      constructor; [now constructor|].
      constructor; [exact Hxy|].
      eapply Forall_impl; [|exact Hall]. unfold timeLe in *. intros z Hz. lra.
Qed.

Lemma sortBy_byTime_sorted (l : list WeatherPoint) :
  StronglySorted timeLe (JS.sortBy byTime l).
Proof.
  unfold JS.sortBy.
  assert (H : forall acc, StronglySorted timeLe acc ->
            StronglySorted timeLe
              (fold_left (fun acc x => JS.insertBy byTime x acc) l acc)).
  { induction l as [|x r IH]; intros acc Hacc; simpl; [exact Hacc|].
    apply IH. now apply insertBy_byTime_sorted. }
  apply H. constructor.
Qed.

Lemma classifyLoop_sorted (weatherPoints : list WeatherPoint) :
  forall prev,
    StronglySorted timeLe weatherPoints ->
    StronglySorted timeLe (classifyLoop prev weatherPoints).
Proof.
  induction weatherPoints as [|point rest IH]; intros prev Hs; simpl.
  - constructor.
  - apply StronglySorted_inv in Hs. destruct Hs as [Hs Hall].
    destruct (classify point prev) as [sig reason].
    specialize (IH (Some point) Hs).
    destruct sig; [|exact IH]. simpl. constructor; [exact IH|].
    apply Forall_forall. intros q Hq.
    destruct (classifyLoop_In _ _ _ Hq) as [q0 [r [Hq0 ->]]].
    rewrite Forall_forall in Hall. exact (Hall q0 Hq0).
Qed.

(** X10 (filterSignificantWeatherPoints, order): when the input is ordered
    by time, so is the result, whichever passes of the filter ran. *)
Theorem filter_keeps_time_order
    (weatherPoints : list WeatherPoint) (maxPoints : nat) :
  StronglySorted timeLe weatherPoints ->
  StronglySorted timeLe
    (filterSignificantWeatherPoints weatherPoints maxPoints).
Proof.
  intros Hs. unfold filterSignificantWeatherPoints.
  destruct (length weatherPoints <=? 3)%nat; [exact Hs|]. cbv zeta.
  destruct (maxPoints <? _)%nat; [apply sortBy_byTime_sorted|].
  unfold significantPoints. cbv zeta.
  destruct (_ && _)%bool; [apply sortBy_byTime_sorted|].
  now apply classifyLoop_sorted.
Qed.

End FilterOrderAndReasons.

Lemma filter_keeps_time_order_witness :
  StronglySorted timeLe (filterSignificantWeatherPoints Example.trip 2).
Proof.
  apply filter_keeps_time_order. exact trip_ascending.
Defined.

(** ** The shape of the segments *)

Section SegmentShape.

Variable geometry : list GeoPoint.

Lemma slice_is_subPath (l : list GeoPoint) (s e : Z) :
  exists a n, JS.slice l s e = subPath l a n.
Proof.
  unfold JS.slice. cbv zeta.
  exists (JS.relIndex (JS.len l) s),
         (JS.relIndex (JS.len l) e - JS.relIndex (JS.len l) s)%nat.
  reflexivity.
Qed.

Lemma sliceFrom_is_subPath (l : list GeoPoint) (s : Z) :
  exists a n, JS.sliceFrom l s = subPath l a n.
Proof.
  unfold JS.sliceFrom.
  exists (JS.relIndex (JS.len l) s), (length l). unfold subPath.
  symmetry. apply firstn_all2. rewrite length_skipn. lia.
Qed.

(** A sub-path of a sub-path of the route is a sub-path of the route. *)
Lemma subPath_subPath (a n b m : nat) :
  exists c k, subPath (subPath geometry a n) b m = subPath geometry c k.
Proof.
  exists (a + b)%nat, (Nat.min m (n - b)).
  unfold subPath.
  rewrite skipn_firstn_comm, firstn_firstn, skipn_skipn.
  now rewrite (Nat.add_comm b a).
Qed.

Lemma splitInHalf_segments (l : list GeoPoint)
    (w1 w2 : option WeatherObservation) (seg : RouteSegment) :
  In seg (splitInHalf l w1 w2) ->
  (2 <= length (positions seg))%nat /\
  (exists a n, positions seg = subPath l a n) /\
  ((color seg = getColorForWeather w1 /\ segWeather seg = Some w1) \/
   (color seg = getColorForWeather w2 /\ segWeather seg = Some w2)).
Proof.
  unfold splitInHalf. destruct (JS.len l <? 2)%Z; [contradiction|].
  cbv zeta. intros Hin. apply in_app_or in Hin.
  destruct Hin as [Hin|Hin].
  - destruct (Z.gtb_spec (JS.len (JS.slice l 0 (JS.len l / 2 + 1))) 1)
      as [Hgt|_]; [|contradiction].
    destruct Hin as [<-|[]]. simpl. unfold JS.len in Hgt at 1.
    split; [lia|]. split; [apply slice_is_subPath|]. left. now split.
  - destruct (Z.gtb_spec (JS.len (JS.sliceFrom l (JS.len l / 2))) 1)
      as [Hgt|_]; [|contradiction].
    destruct Hin as [<-|[]]. simpl. unfold JS.len in Hgt at 1.
    split; [lia|]. split; [apply sliceFrom_is_subPath|]. right. now split.
Qed.

Lemma segmentLoop_segments (cum : list R) (totalDuration total startTime : R)
    (weatherPoints : list WeatherPoint) (seg : RouteSegment) :
  In seg (segmentLoop geometry cum totalDuration total startTime
                      weatherPoints) ->
  (2 <= length (positions seg))%nat /\
  (exists a n, positions seg = subPath geometry a n) /\
  (exists w, In w weatherPoints /\
             color seg = getColorForWeather (weather w) /\
             segWeather seg = Some (weather w)).
Proof.
  induction weatherPoints as [|a rest IH]; [contradiction|].
  destruct rest as [|b rest']; [contradiction|].
  intros Hin.
  change (In seg (segmentsOfPair geometry cum totalDuration total startTime
                                 a b ++
                  segmentLoop geometry cum totalDuration total startTime
                              (b :: rest'))) in Hin.
  apply in_app_or in Hin. destruct Hin as [Hin|Hin].
  - unfold segmentsOfPair in Hin. cbv zeta in Hin.
    destruct (resolveIndices _ _ _ _) as [s e].
    apply splitInHalf_segments in Hin.
    destruct Hin as [Hlen [[k [n Hpos]] Hcol]].
    split; [exact Hlen|]. split.
    + destruct (slice_is_subPath geometry s (e + 1)) as [a0 [n0 Hs]].
      rewrite Hs in Hpos. rewrite Hpos. apply subPath_subPath.
    + destruct Hcol as [[Hc Hw]|[Hc Hw]].
      * exists a. split; [now left|now split].
      * exists b. split; [right; now left|now split].
  - destruct (IH Hin) as [Hlen [Hpos [w [Hw Hcol]]]].
    split; [exact Hlen|]. split; [exact Hpos|].
    exists w. split; [now right|exact Hcol].
Qed.

(** X11 (createRouteSegments, shape of the result): the result is never
    empty; it is the single fallback segment, or every segment of it has at
    least two positions, which are consecutive points of the route, and has
    the colour and the weather of one of the weather points given. *)
Theorem createRouteSegments_shape
    (weatherPoints : option (list WeatherPoint))
    (totalDuration startTime : R) :
  let segments :=
    createRouteSegments geometry weatherPoints totalDuration startTime in
  (1 <= length segments)%nat /\
  (segments = [fullRoute geometry] \/
   Forall (fun seg =>
             (2 <= length (positions seg))%nat /\
             (exists a n, positions seg = subPath geometry a n) /\
             (exists w, In w (match weatherPoints with
                              | Some l => l
                              | None => []
                              end) /\
                        color seg = getColorForWeather (weather w) /\
                        segWeather seg = Some (weather w)))
          segments).
Proof.
  unfold createRouteSegments. destruct weatherPoints as [wps|].
  2:{ cbv zeta. split; [simpl; lia|now left]. }
  destruct (JS.len wps <? 2)%Z.
  { cbv zeta. split; [simpl; lia|now left]. }
  cbv zeta.
  destruct (segmentLoop geometry (cumulativeDistances geometry) totalDuration
              (totalDistanceOf (cumulativeDistances geometry)) startTime wps)
    as [|seg segs] eqn:E.
  { split; [simpl; lia|now left]. }
  change (JS.len (seg :: segs) =? 0)%Z with false.
  split; [simpl; lia|]. right. apply Forall_forall. intros s Hs.
  rewrite <- E in Hs. now apply segmentLoop_segments in Hs.
Qed.

End SegmentShape.

(** ** The sampler on short routes, and the number of samples *)

Section SamplerEdges.

Variables totalDuration startTime intervalMinutes : R.
Hypothesis duration_pos : 0 < totalDuration.
Hypothesis interval_pos : 0 < intervalMinutes.

Lemma floor_zero_iff_short :
  totalDuration < intervalMinutes * 60 ->
  JS.floor (totalDuration / (intervalMinutes * 60)) = 0%Z.
Proof.
  intros Hshort. apply Zfloor_eq. simpl.
  assert (HI : 0 < intervalMinutes * 60) by lra. split.
  - apply Rmult_le_pos; [lra|]. left. now apply Rinv_0_lt_compat.
  - apply (Rmult_lt_reg_r (intervalMinutes * 60)); [exact HI|].
    unfold Rdiv. rewrite Rmult_assoc, Rinv_l by lra. lra.
Qed.

Lemma floor_positive_iff_long :
  intervalMinutes * 60 <= totalDuration ->
  (1 <= JS.floor (totalDuration / (intervalMinutes * 60)))%Z.
Proof.
  intros Hlong. apply (Zfloor_lub 1).
  assert (HI : 0 < intervalMinutes * 60) by lra.
  apply (Rmult_le_reg_r (intervalMinutes * 60)); [exact HI|].
  unfold Rdiv. rewrite Rmult_assoc, Rinv_l by lra. lra.
Qed.

(** X12 (sampleRoutePoints, routes of fewer than two points): without any
    point the sampler raises; with a single point and an interval of whole
    seconds it raises as soon as one interval fits in the duration, and
    otherwise returns that point once, flagged both as start and as end;
    its time is the arrival cut to whole milliseconds, when the product
    and the sum that give the arrival are exact and the date is valid. *)
Theorem sampleRoutePoints_short_geometry (g : GeoPoint) :
  sampleRoutePoints [] totalDuration startTime intervalMinutes = None /\
  (whole (intervalMinutes * 60) ->
   (intervalMinutes * 60 <= totalDuration ->
    sampleRoutePoints [g] totalDuration startTime intervalMinutes = None) /\
   (totalDuration < intervalMinutes * 60 ->
    binary64 (totalDuration * 1000) ->
    binary64 (startTime + totalDuration * 1000) ->
    dateRange (startTime + totalDuration * 1000) ->
    sampleRoutePoints [g] totalDuration startTime intervalMinutes =
      Some [ {| lat := fst g; lon := snd g;
                time := JS.newDate (startTime + totalDuration * 1000);
                geometryIndex := 0; isStart := true; isEnd := true |} ])).
Proof.
  split; [reflexivity|]. intros _. split.
  - intros Hlong. pose proof (floor_positive_iff_long Hlong) as Hn.
    unfold sampleRoutePoints. cbv zeta.
    change (JS.get [g] 0) with (Some g). cbn [bind].
    unfold loopCounters.
    destruct (Z.to_nat (JS.floor (totalDuration / (intervalMinutes * 60))))
      as [|k] eqn:E; [lia|].
    cbn [seq map traverse].
    assert (Hraise : forall i, sampleAt [g] (cumulativeDistances [g])
              totalDuration (totalDistanceOf (cumulativeDistances [g]))
              startTime (intervalMinutes * 60) i = None).
    { intros i. unfold sampleAt. cbv zeta.
      change (cumulativeDistances [g]) with [0].
      pose proof (findIndex_range
                    (fun d => JS.geb d
                       (IZR i * (intervalMinutes * 60) / totalDuration *
                        totalDistanceOf [0])) [0]) as Hr.
      change (JS.len [0]) with 1%Z in Hr.
      destruct (Z.leb_spec
                  (JS.findIndex
                     (fun d => JS.geb d
                        (IZR i * (intervalMinutes * 60) / totalDuration *
                         totalDistanceOf [0])) [0]) 0) as [_|Hpos]; [|lia].
      reflexivity. }
    now rewrite Hraise.
  - intros Hshort _ _ _. unfold sampleRoutePoints. cbv zeta.
    rewrite (floor_zero_iff_short Hshort).
    change (loopCounters 0) with (@nil Z).
    change (JS.get [g] 0) with (Some g). cbn [bind traverse].
    unfold closeRoute.
    change (JS.get [g] (JS.len [g] - 1)) with (Some g).
    match goal with
    | |- context [JS.get [?a] (JS.len [?a] - 1)] =>
        change (JS.get [a] (JS.len [a] - 1)) with (Some a)
    end.
    cbn [bind lat lon isStart removelast app].
    rewrite haversineDistance_same.
    destruct (Rgt_dec 0 2) as [H|_]; [exfalso; lra|]. reflexivity.
Qed.

End SamplerEdges.

(** One point: a minute fits in 100 seconds, and the call raises; half an
    hour does not fit in a sixteenth of a second, and the point comes back
    with the arrival after 62.5 ms cut to 62 ms. *)
Lemma sampleRoutePoints_short_geometry_witness :
  sampleRoutePoints [(0, 0)] 100 0 1 = None /\
  exists p,
    sampleRoutePoints [(0, 0)] (1 / 16) 0 30 = Some [p] /\ time p = 62.
Proof.
  split.
  - destruct (sampleRoutePoints_short_geometry 100 0 1 ltac:(lra) ltac:(lra)
                (0, 0)) as [_ Hwhole].
    destruct Hwhole as [Hone _]; [exists 60%Z; lra|]. apply Hone. lra.
  - destruct (sampleRoutePoints_short_geometry (1 / 16) 0 30 ltac:(lra)
                ltac:(lra) (0, 0)) as [_ Hwhole].
    destruct Hwhole as [_ Hshort]; [exists 1800%Z; lra|].
    eexists. split.
    + apply Hshort.
      * lra.
      * exists 125%Z, (-1)%Z. split; [reflexivity|]. split; [lia|].
        simpl. lra.
      * exists 125%Z, (-1)%Z. split; [reflexivity|]. split; [lia|].
        simpl. lra.
      * unfold dateRange. rewrite Rabs_pos_eq; lra.
    + cbn [time]. unfold JS.newDate, JS.trunc.
      destruct (Rle_dec 0 (0 + 1 / 16 * 1000)) as [_|Hno]; [|lra].
      apply f_equal. apply Zfloor_eq. lra.
Defined.

(** ** The samples lie on the route *)

Section SamplerGeometry.

Variable geometry : list GeoPoint.
Variables totalDuration startTime intervalMinutes : R.

Hypothesis geometry_two : (2 <= length geometry)%nat.
Hypothesis duration_pos : 0 < totalDuration.
Hypothesis interval_pos : 0 < intervalMinutes.

Let intervalSeconds := intervalMinutes * 60.
Let numIntervals := JS.floor (totalDuration / intervalSeconds).
Let cum := cumulativeDistances geometry.
Let totalDistance := totalDistanceOf cum.

(** X13 (sampleRoutePoints, number of samples): for an interval of whole
    seconds, with [n] the number of whole intervals in the duration, the
    sampler returns [n + 1] or [n + 2] points: the start, the [n] samples,
    and the end when it does not replace the last of them. *)
Theorem sampleRoutePoints_count :
  whole (intervalMinutes * 60) ->
  exists pts,
    sampleRoutePoints geometry totalDuration startTime intervalMinutes =
      Some pts /\
    (Z.of_nat (length pts) =
       JS.floor (totalDuration / (intervalMinutes * 60)) + 1 \/
     Z.of_nat (length pts) =
       JS.floor (totalDuration / (intervalMinutes * 60)) + 2)%Z.
Proof.
  intros _.
  destruct (sampleRoutePoints_shape geometry totalDuration startTime
              intervalMinutes geometry_two duration_pos interval_pos)
    as [front [start [Heq [_ [Hlen _]]]]].
  eexists. split; [exact Heq|].
  rewrite length_app. simpl length. lia.
Qed.

Lemma get_nth_error_nonneg {A} (arr : list A) (i : Z) (x : A) :
  JS.get arr i = Some x -> (0 <= i)%Z /\ nth_error arr (Z.to_nat i) = Some x.
Proof.
  unfold JS.get. destruct (Z.ltb_spec i 0) as [_|Hi]; [discriminate|].
  intros Hx. split; [lia|exact Hx].
Qed.

(** A sample of the loop lies on the leg that ends at its index. *)
Lemma sampleAt_on_leg (i : Z) (p : SamplePoint) :
  (0 <= i <= numIntervals)%Z ->
  sampleAt geometry cum totalDuration totalDistance startTime
           intervalSeconds i = Some p ->
  onLeg geometry p.
Proof.
  intros [Hi0 Hin]. unfold sampleAt. cbv zeta.
  set (target := IZR i * intervalSeconds / totalDuration * totalDistance).
  change (JS.findIndex (fun d => JS.geb d target) cum)
    with (search target cum).
  assert (HI : 0 < intervalSeconds) by (unfold intervalSeconds; lra).
  assert (Htotal : 0 <= totalDistance)
    by apply cumulativeDistances_last_nonneg.
  assert (Hlow : 0 <= target).
  { unfold target. apply Rmult_le_pos; [|exact Htotal].
    apply Rmult_le_pos; [|left; now apply Rinv_0_lt_compat].
    apply Rmult_le_pos; [apply IZR_le; lia|lra]. }
  assert (Hhigh : target <= totalDistance).
  { apply (target_within geometry totalDuration intervalMinutes
             duration_pos interval_pos i Hin). }
  assert (Hne : cum <> []) by (unfold cum, cumulativeDistances; discriminate).
  pose proof (search_found target cum Hne Hhigh) as Hfound.
  set (r := search target cum) in *.
  set (idx := if (r <=? 0)%Z then 1%Z else r).
  assert (Hidx : (1 <= idx)%Z) by (unfold idx; destruct (Z.leb_spec r 0); lia).
  destruct (JS.get cum (idx - 1)) as [s|] eqn:Es; [|discriminate].
  destruct (JS.get cum idx) as [e|] eqn:Ee; [|discriminate].
  destruct (JS.get geometry (idx - 1)) as [g0|] eqn:Eg0; [|discriminate].
  destruct (JS.get geometry idx) as [g1|] eqn:Eg1; [|discriminate].
  cbn [bind]. intros Hp. injection Hp as <-.
  apply get_nth_error_nonneg in Es, Ee, Eg0, Eg1.
  destruct Es as [_ Es]. destruct Ee as [_ Ee].
  destruct Eg0 as [_ Eg0]. destruct Eg1 as [_ Eg1].
  replace (Z.to_nat idx) with (S (Z.to_nat (idx - 1))) in Ee, Eg1 by lia.
  exists (Z.to_nat (idx - 1)), g0, g1.
  assert (Hsp : 0 <= (if Rgt_dec e s then (target - s) / (e - s) else 0)
                <= 1).
  { destruct (Rgt_dec e s) as [Hgt|_]; [|lra].
    assert (Hbr : s <= target <= e).
    { destruct (Z.leb_spec r 0) as [Hr0|Hrpos].
      - assert (Hr : r = 0%Z) by lia.
        assert (Hk : search target cum = Z.of_nat 0)
          by (change (search target cum) with r; lia).
        destruct (search_first target cum 0 Hk) as [[d [Hd Hle]] _].
        assert (Hd0 : d = 0) by (unfold cum, cumulativeDistances in Hd;
                                 simpl in Hd; congruence).
        assert (Ht0 : target = 0) by lra.
        unfold idx in Es. destruct (Z.leb_spec r 0) as [_|Hno]; [|lia].
        change (Z.to_nat (1 - 1)) with 0%nat in Es.
        assert (Hs : s = d) by congruence. lra.
      - unfold idx in Es, Ee. destruct (Z.leb_spec r 0) as [Hno|_]; [lia|].
        assert (Hk : search target cum = Z.of_nat (Z.to_nat r))
          by (change (search target cum) with r; lia).
        destruct (search_first target cum (Z.to_nat r) Hk)
          as [[d [Hd Hle]] Hbefore].
        replace (S (Z.to_nat (r - 1))) with (Z.to_nat r) in Ee by lia.
        rewrite Hd in Ee. injection Ee as <-.
        specialize (Hbefore (Z.to_nat (r - 1)) s ltac:(lia) Es). lra. }
    split.
    - apply Rmult_le_pos; [lra|]. left. apply Rinv_0_lt_compat. lra.
    - apply (Rmult_le_reg_r (e - s)); [lra|].
      unfold Rdiv. rewrite Rmult_assoc, Rinv_l by lra. lra. }
  eexists. split; [exact Eg0|]. split; [exact Eg1|].
  split; [exact Hsp|]. cbn [lat lon geometryIndex].
  split; [reflexivity|]. split; [reflexivity|]. left. lia.
Qed.

(** X14 (sampleRoutePoints, interpolation): on a regional route, for an
    interval of whole seconds, every point the sampler returns lies on a
    leg of the route, between two consecutive vertices at a fraction
    between 0 and 1 of the way, and its [geometryIndex] is the upper vertex
    of that leg (0 for the start). *)
Theorem sampleRoutePoints_on_route :
  regional geometry -> whole (intervalMinutes * 60) ->
  exists pts,
    sampleRoutePoints geometry totalDuration startTime intervalMinutes =
      Some pts /\
    Forall (onLeg geometry) pts.
Proof.
  intros _ _.
  destruct (sampleRoutePoints_unfold geometry totalDuration startTime
              intervalMinutes geometry_two)
    as [sampled [Hlen [Hbody Heq]]].
  set (startPoint := {| lat := fst (nth 0 geometry (0, 0));
                        lon := snd (nth 0 geometry (0, 0));
                        time := JS.newDate startTime;
                        geometryIndex := 0;
                        isStart := true;
                        isEnd := false |}) in *.
  assert (Hstart : onLeg geometry startPoint).
  { exists 0%nat, (nth 0 geometry (0, 0)), (nth 1 geometry (0, 0)), 0.
    split; [apply nth_error_nth'; lia|].
    split; [apply nth_error_nth'; lia|].
    split; [lra|]. cbn [lat lon geometryIndex startPoint].
    split; [lra|]. split; [lra|]. right. auto. }
  assert (Hsampled : Forall (onLeg geometry) sampled).
  { apply Forall_forall. intros p Hin.
    destruct (In_nth_error _ _ Hin) as [k Hk].
    assert (Hklt : (k < length sampled)%nat)
      by (apply nth_error_Some; congruence).
    apply (sampleAt_on_leg (Z.of_nat (S k)) p).
    - unfold numIntervals, intervalSeconds. lia.
    - apply (Hbody k p Hk). }
  assert (Hpoints : Forall (onLeg geometry) (startPoint :: sampled))
    by (constructor; assumption).
  assert (Hend : forall b,
             onLeg geometry {| lat := fst (last geometry (0, 0));
                               lon := snd (last geometry (0, 0));
                               time := JS.newDate
                                         (startTime + totalDuration * 1000);
                               geometryIndex := JS.len geometry - 1;
                               isStart := b;
                               isEnd := true |}).
  { intros b.
    exists (length geometry - 2)%nat,
           (nth (length geometry - 2) geometry (0, 0)),
           (last geometry (0, 0)), 1.
    split; [apply nth_error_nth'; lia|].
    split.
    { assert (Hne : geometry <> [])
        by (intros E; rewrite E in geometry_two; simpl in geometry_two; lia).
      pose proof (get_last geometry (0, 0) Hne) as Hl.
      apply get_nth_error_nonneg in Hl. destruct Hl as [_ Hl].
      unfold JS.len in Hl.
      replace (S (length geometry - 2))
        with (Z.to_nat (Z.of_nat (length geometry) - 1)) by lia.
      exact Hl. }
    split; [lra|]. cbn [lat lon geometryIndex].
    split; [lra|]. split; [lra|]. left. unfold JS.len. lia. }
  rewrite Heq.
  destruct (closeRoute_spec geometry totalDuration startTime 0 geometry_two
              (startPoint :: sampled) startPoint ltac:(discriminate))
    as [[_ Hfar]|[_ Hnear]].
  - eexists. split; [exact Hfar|].
    apply Forall_app. split; [exact Hpoints|]. constructor; [apply Hend|].
    constructor.
  - eexists. split; [exact Hnear|].
    apply Forall_app. split.
    + apply Forall_forall. intros p Hin.
      destruct (In_nth_error _ _ Hin) as [k Hk].
      apply removelast_nth_error in Hk. destruct Hk as [Hk _].
      apply nth_error_In in Hk.
      rewrite Forall_forall in Hpoints. now apply Hpoints.
    + constructor; [apply Hend|]. constructor.
Qed.

End SamplerGeometry.

Lemma sampleRoutePoints_count_witness :
  exists pts,
    sampleRoutePoints Example.route 2700 0 15 = Some pts /\
    (Z.of_nat (length pts) = JS.floor (2700 / (15 * 60)) + 1 \/
     Z.of_nat (length pts) = JS.floor (2700 / (15 * 60)) + 2)%Z.
Proof.
  apply (sampleRoutePoints_count Example.route 2700 0 15
           ltac:(simpl; lia) ltac:(lra) ltac:(lra)).
  exists 900%Z. lra.
Defined.

Lemma sampleRoutePoints_on_route_witness :
  exists pts,
    sampleRoutePoints Example.route 2700 0 15 = Some pts /\
    Forall (onLeg Example.route) pts.
Proof.
  apply (sampleRoutePoints_on_route Example.route 2700 0 15
           ltac:(simpl; lia) ltac:(lra) ltac:(lra)).
  - exists 0, 0. unfold Example.route.
    repeat constructor; cbn [fst snd]; lra.
  - exists 900%Z. lra.
Defined.

(** ** From the route to the coloured segments *)

Section SampleTimes.

Variable geometry : list GeoPoint.
Variables totalDuration startTime intervalMinutes : R.

Hypothesis geometry_two : (2 <= length geometry)%nat.
Hypothesis interval_pos : 0 < intervalMinutes.
Hypothesis interval_whole : whole (intervalMinutes * 60).
Hypothesis start_whole : whole startTime.
Hypothesis start_epoch : 0 <= startTime.
Hypothesis duration_ms : 1 <= totalDuration * 1000.


End SampleTimes.

Section Pipeline.

Variable getWeatherAtTime : R -> R -> R -> option WeatherObservation.
Variable geometry : list GeoPoint.
Variables duration timeMultiplier startTime : R.

Let cum := cumulativeDistances geometry.
Let total := totalDistanceOf cum.

Hypothesis geometry_two : (2 <= length geometry)%nat.
Hypothesis distance_metre : 1 / 1000 <= total.
Hypothesis start_whole : whole startTime.
Hypothesis start_epoch : 0 <= startTime.
Hypothesis duration_ms : 1 <= duration * timeMultiplier * 1000.




End Pipeline.


